(** * Peg solitaire simulation: board, move finder, move applier, driver

    A shallow embedding of [main.cpp] and the properties of its engine:
    [make_board], [get_from_board], [get_move], [do_move], [get_score],
    [run_simulation] (its loop, and the whole call with its printing and
    the generator of the process), the two [operator<<] and the seed search
    of [main].

    Integers.  [size_t] values are modelled as [Z] and every [size_t]
    operation that can leave the range [0, 2^64) has its reduction modulo
    [2^64] written out ([wrap]).  The [int] variables of [get_move] and
    [get_from_board] range over [-2 .. size + 1]; a [Board<size>] holds
    [size * size] four-byte cells, so [size] is far below [2^31] for every
    board that can exist, and these [int]s never wrap.  The coordinates
    stored in a [Move] are [int]s that [get_from_board] has accepted, hence
    in [0 .. size - 1], and their conversion to [size_t] changes nothing. *)

From Stdlib Require Import ZArith Lia Ascii String DecimalString DecimalN.
From stdpp Require Import base tactics option numbers strings list.

Local Open Scope Z_scope.

(** ** Outcomes of a call

    A call returns normally, or stops on a failed [assert] /
    [static_assert], or indexes a [std::array] out of its range (undefined
    behaviour in C++, kept apart here so that theorems can exclude it). *)

Inductive failure : Type :=
  | StaticAssertFailed
  | AssertionFailed
  | OutOfRange.

Inductive outcome (A : Type) : Type :=
  | Ok (a : A)
  | Abort (why : failure).

Arguments Ok {A} a.
Arguments Abort {A} why.

#[global] Instance outcome_ret : MRet outcome := λ A a, Ok a.
#[global] Instance outcome_bind : MBind outcome := λ A B f m,
  match m with
  | Ok a => f a
  | Abort why => Abort why
  end.

Definition assert (cond : bool) : outcome unit :=
  if cond then Ok tt else Abort AssertionFailed.

(** ** Data model *)

Inductive FieldState : Type :=
  | UNUSABLE
  | EMPTY
  | OCCUPIED.

#[global] Instance FieldState_eq_dec : EqDecision FieldState.
Proof. solve_decision. Defined.

(** [Board<size>] is [std::array<std::array<FieldState, size>, size>]: a
    list of rows; the template argument [size] is passed along explicitly. *)
Abbreviation Board := (list (list FieldState)).

Definition wf_board (size : Z) (board : Board) : Prop :=
  Z.of_nat (length board) = size ∧
  Forall (λ row, Z.of_nat (length row) = size) board.

Abbreviation Coordinate := (Z * Z)%type.

Record Move : Type := mkMove { from : Coordinate; to : Coordinate }.

#[global] Instance Move_eq_dec : EqDecision Move.
Proof. solve_decision. Defined.

(** Width of [size_t] and its wrap-around. *)
Definition size_t_bits : Z := 64.
Definition wrap (z : Z) : Z := z mod 2 ^ size_t_bits.

(** ** Indexing a board in place *)

(** [board[row][column]] as an rvalue, with [size_t] indices. *)
Definition at_ (board : Board) (row column : Z) : outcome FieldState :=
  if bool_decide (0 ≤ row ∧ 0 ≤ column) then
    match board !! Z.to_nat row with
    | Some r =>
        match r !! Z.to_nat column with
        | Some cell => Ok cell
        | None => Abort OutOfRange
        end
    | None => Abort OutOfRange
    end
  else Abort OutOfRange.

(** The board after [board[row][column] = cell], where the cell exists. *)
Definition put (board : Board) (row column : Z) (cell : FieldState) : Board :=
  match board !! Z.to_nat row with
  | Some r => <[Z.to_nat row := <[Z.to_nat column := cell]> r]> board
  | None => board
  end.

(** [board[row][column] = cell]. *)
Definition store (board : Board) (row column : Z) (cell : FieldState)
  : outcome Board :=
  _ ← at_ board row column;
  Ok (put board row column cell).

(** ** Loops *)

(** A loop over a range whose body may fail: [for (auto x : xs) { ... }]
    threading the mutated state. *)
Fixpoint for_each_do {S A : Type} (xs : list A) (body : S → A → outcome S)
    (s : S) : outcome S :=
  match xs with
  | [] => Ok s
  | x :: xs' => s' ← body s x; for_each_do xs' body s'
  end.

(** A loop whose body may [return] a value from the enclosing function:
    [Ok None] is falling off the end of the body (or [continue]),
    [Ok (Some v)] is [return v]. *)
Fixpoint for_each_return {A R : Type} (xs : list A)
    (body : A → outcome (option R)) : outcome (option R) :=
  match xs with
  | [] => Ok None
  | x :: xs' =>
      match body x with
      | Ok None => for_each_return xs' body
      | r => r
      end
  end.

(** ** make_board *)

Definition make_board (size : Z) : outcome Board :=
  (* static_assert(size % 2 == 1) *)
  if negb (size mod 2 =? 1) then Abort StaticAssertFailed else
  (* Board<size> board = {}; *)
  let board : Board :=
    replicate (Z.to_nat size) (replicate (Z.to_nat size) UNUSABLE) in
  let board : Board :=
    (λ row : list FieldState, (λ _, OCCUPIED) <$> row) <$> board in
  board ← for_each_do [0; wrap (size - 1)] (λ board index,
    board ← store board index 0 UNUSABLE;
    board ← store board index 1 UNUSABLE;
    board ← store board index (wrap (size - 2)) UNUSABLE;
    store board index (wrap (size - 1)) UNUSABLE) board;
  board ← for_each_do [1; wrap (size - 2)] (λ board index,
    board ← store board index 0 UNUSABLE;
    store board index (wrap (size - 1)) UNUSABLE) board;
  store board (size / 2) (size / 2) EMPTY.

(** ** get_from_board *)

Definition get_from_board (size : Z) (board : Board) (row column : Z)
  : option FieldState :=
  if bool_decide (row < 0 ∨ column < 0 ∨ row >= size ∨ column >= size) then None
  else r ← board !! Z.to_nat row; r !! Z.to_nat column.

(** ** get_move *)

Definition directions : list (Z * Z) := [(0, 1); (1, 0); (-1, 0); (0, -1)].

Definition get_move (size : Z) (board : Board) (offset : Coordinate)
  : outcome (option Move) :=
  for_each_return (seqZ 0 size) (λ row,
    for_each_return (seqZ 0 size) (λ column,
      let '(row_offset, column_offset) := offset in
      let offsetted_row := wrap (row + row_offset) mod size in
      let offsetted_column := wrap (column + column_offset) mod size in
      let cell := get_from_board size board offsetted_row offsetted_column in
      _ ← assert (bool_decide (is_Some cell));
      if bool_decide (cell = Some OCCUPIED) then
        for_each_return directions (λ '(row_direction, column_direction),
          let next_to :=
            get_from_board size board (offsetted_row + row_direction)
                           (offsetted_column + column_direction) in
          if bool_decide (next_to ≠ Some OCCUPIED) then Ok None else
          let target_row := offsetted_row + 2 * row_direction in
          let target_column := offsetted_column + 2 * column_direction in
          let over_one := get_from_board size board target_row target_column in
          if bool_decide (over_one ≠ Some EMPTY) then Ok None else
          Ok (Some (mkMove (offsetted_row, offsetted_column)
                           (target_row, target_column))))
      else Ok None)).

(** ** do_move *)

(** [std::midpoint] on unsigned integers: half the distance, rounded
    towards the first argument. *)
Definition midpoint (a b : Z) : Z :=
  if bool_decide (a ≤ b) then a + (b - a) / 2 else a - (a - b) / 2.

Definition do_move (board : Board) (move : Move) : outcome Board :=
  let '(from_row, from_column) := from move in
  let '(to_row, to_column) := to move in
  (* auto &from = board[from_row][from_column]; *)
  from_cell ← at_ board from_row from_column;
  _ ← assert (bool_decide (from_cell = OCCUPIED));
  let board := put board from_row from_column EMPTY in
  (* auto &to = board[to_row][to_column]; *)
  _ ← at_ board to_row to_column;
  (* assert(from == FieldState::EMPTY); reads the origin again *)
  from_cell ← at_ board from_row from_column;
  _ ← assert (bool_decide (from_cell = EMPTY));
  let board := put board to_row to_column OCCUPIED in
  let over_row := midpoint from_row to_row in
  let over_column := midpoint from_column to_column in
  over ← at_ board over_row over_column;
  _ ← assert (bool_decide (over = OCCUPIED));
  Ok (put board over_row over_column EMPTY).

(** ** get_score *)

Definition count_if {A : Type} (p : A → bool) (v : list A) : Z :=
  Z.of_nat (length (filter (λ x, p x = true) v)).

Definition accumulate (xs : list Z) (init : Z) : Z := foldl Z.add init xs.

(** The sum is the mathematical one; it is the [int] the source returns
    whenever the number of cells is at most [INT_MAX], as on every board the
    program builds. *)
Definition get_score (board : Board) : Z :=
  let results :=
    (λ v, count_if (λ cell, bool_decide (cell = OCCUPIED)) v) <$> board in
  accumulate results 0.

(** Cells of the board in a given state (the count [get_score] makes for
    [OCCUPIED], for any state). *)
Definition count_cells (s : FieldState) (board : Board) : Z :=
  accumulate ((λ v, count_if (λ cell, bool_decide (cell = s)) v) <$> board) 0.

(** ** run_simulation

    [srand]/[rand] keep the generator in a process-wide state; here the
    state is explicit and threaded through the driver.  The algorithm of
    the generator is left open: the driver is verified for every [srand]
    and [rand].  Printing ([print_run]) is left out. *)

Section Driver.

Variable RandState : Type.
Variable srand : Z → RandState.
Variable rand : RandState → Z * RandState.

(** The local variables of [run_simulation]. *)
Record Simulation : Type := mkSimulation {
  board : Board;
  generator : RandState;
  possible_move : option Move;
  move_history : list Move;
  score : Z
}.

Definition board_size : Z := 9.

(** [size_t rx = rand(); size_t ry = rand(); Coordinate
    randomized_offset{rx, ry};] *)
Definition draw_offset (g : RandState) : Coordinate * RandState :=
  let '(rx, g) := rand g in
  let '(ry, g) := rand g in
  ((wrap rx, wrap ry), g).

(** The statements before the [while] loop. *)
Definition simulation_start (seed : Z) : outcome Simulation :=
  (* srand takes an unsigned int *)
  let g := srand (seed mod 2 ^ 32) in
  let move_history : list Move := [] in
  board ← make_board board_size;
  let '(randomized_offset, g) := draw_offset g in
  possible_move ← get_move board_size board randomized_offset;
  let score := board_size * board_size - 13 in
  Ok (mkSimulation board g possible_move move_history score).

(** One pass through the body of the [while] loop, entered with
    [possible_move] holding [move]. *)
Definition simulation_step (s : Simulation) (move : Move)
  : outcome Simulation :=
  board ← do_move (board s) move;
  let move_history := move_history s ++ [move] in
  let '(randomized_offset, g) := draw_offset (generator s) in
  possible_move ← get_move board_size board randomized_offset;
  Ok (mkSimulation board g possible_move move_history (score s - 1)).

(** [while (possible_move) { ... }], at most [fuel] passes; [None] when
    the fuel does not suffice. *)
Fixpoint simulation_loop (fuel : nat) (s : Simulation)
  : option (outcome Simulation) :=
  match possible_move s with
  | None => Some (Ok s)
  | Some move =>
      match fuel with
      | O => None
      | S fuel' =>
          match simulation_step s move with
          | Ok s' => simulation_loop fuel' s'
          | Abort why => Some (Abort why)
          end
      end
  end.

(** The whole run, up to the state in which the loop is left. *)
Definition simulate (fuel : nat) (seed : Z) : option (outcome Simulation) :=
  match simulation_start seed with
  | Ok s => simulation_loop fuel s
  | Abort why => Some (Abort why)
  end.

(** [run_simulation] returns the score. *)
Definition run_simulation (fuel : nat) (seed : Z) : option (outcome Z) :=
  r ← simulate fuel seed; Some (s ← r; Ok (score s)).

(** The states the driver goes through: at loop entry and after every
    pass. *)
Inductive reached (seed : Z) : Simulation → Prop :=
  | reached_start s :
      simulation_start seed = Ok s → reached seed s
  | reached_step s move s' :
      reached seed s →
      possible_move s = Some move →
      simulation_step s move = Ok s' →
      reached seed s'.

(** What holds of the driver's variables at loop entry and after every
    pass. *)
Definition sim_inv (s : Simulation) : Prop :=
  wf_board board_size (board s) ∧
  score s = get_score (board s) ∧
  (∃ offset, get_move board_size (board s) offset = Ok (possible_move s)) ∧
  Z.of_nat (length (move_history s)) + get_score (board s)
    = board_size * board_size - 13.

End Driver.

Arguments board {RandState} _.
Arguments generator {RandState} _.
Arguments possible_move {RandState} _.
Arguments move_history {RandState} _.
Arguments score {RandState} _.
Arguments mkSimulation {RandState} _ _ _ _ _.
Arguments reached {RandState} _ _ _ _.
Arguments sim_inv {RandState} _.
Arguments draw_offset {RandState} _ _.
Arguments simulation_start {RandState} _ _ _.
Arguments simulation_step {RandState} _ _ _.
Arguments simulation_loop {RandState} _ _ _.
Arguments simulate {RandState} _ _ _ _.
Arguments run_simulation {RandState} _ _ _ _.

(** A concrete generator for running the driver: a linear congruential
    generator with 31-bit results. *)
Definition lcg_srand (seed : Z) : Z := seed.
Definition lcg_rand (g : Z) : Z * Z :=
  let g' := (g * 1103515245 + 12345) mod 2 ^ 31 in (g', g').

(** ** Specification-level notions *)

(** What [apply] asks of a move: origin occupied, destination empty, the
    two exactly two cells apart along one axis, midpoint occupied. *)
Definition two_apart (move : Move) : Prop :=
  ((from move).1 = (to move).1 ∧ Z.abs ((from move).2 - (to move).2) = 2) ∨
  ((from move).2 = (to move).2 ∧ Z.abs ((from move).1 - (to move).1) = 2).

Definition over (move : Move) : Coordinate :=
  (midpoint (from move).1 (to move).1, midpoint (from move).2 (to move).2).

Definition valid_move (size : Z) (board : Board) (move : Move) : Prop :=
  get_from_board size board (from move).1 (from move).2 = Some OCCUPIED ∧
  get_from_board size board (to move).1 (to move).2 = Some EMPTY ∧
  two_apart move ∧
  get_from_board size board (over move).1 (over move).2 = Some OCCUPIED.

#[global] Instance valid_move_dec size board move :
  Decision (valid_move size board move).
Proof. unfold valid_move, two_apart. apply _. Defined.

(** The scan order in the words of the specification: row-major, every
    index shifted by the offset modulo [size]. *)
Definition rotated (size offset i : Z) : Z := (i + offset) mod size.

Definition rotated_scan (size : Z) (offset : Coordinate) : list Coordinate :=
  row ← seqZ 0 size;
  column ← seqZ 0 size;
  [(rotated size offset.1 row, rotated size offset.2 column)].

(** A legal jump from [cell] in direction [d]. *)
Definition legal_jump (size : Z) (board : Board) (cell : Coordinate)
    (d : Z * Z) : Prop :=
  get_from_board size board cell.1 cell.2 = Some OCCUPIED ∧
  get_from_board size board (cell.1 + d.1) (cell.2 + d.2) = Some OCCUPIED ∧
  get_from_board size board (cell.1 + 2 * d.1) (cell.2 + 2 * d.2) = Some EMPTY.

#[global] Instance legal_jump_dec size board cell d :
  Decision (legal_jump size board cell d).
Proof. unfold legal_jump. apply _. Defined.

Definition jump (cell : Coordinate) (d : Z * Z) : Move :=
  mkMove cell (cell.1 + 2 * d.1, cell.2 + 2 * d.2).

(** The jump from [cell] in the first direction that is legal. *)
Definition first_jump (size : Z) (board : Board) (cell : Coordinate)
  : option Move :=
  d ← head (filter (legal_jump size board cell) directions);
  Some (jump cell d).

(** The move finder in the words of the specification: the first cell of
    the rotated scan that admits a jump, with its first legal direction. *)
Definition find_move_spec (size : Z) (board : Board) (offset : Coordinate)
  : option Move :=
  cell ← head (filter (λ cell, Exists (legal_jump size board cell) directions)
                      (rotated_scan size offset));
  first_jump size board cell.

(** The cells [make_board] marks unusable: three at each corner. *)
Definition corner (size row column : Z) : bool :=
  (bool_decide (row = 0 ∨ row = size - 1) &&
   bool_decide (column = 0 ∨ column = 1 ∨
                column = size - 2 ∨ column = size - 1)) ||
  (bool_decide (row = 1 ∨ row = size - 2) &&
   bool_decide (column = 0 ∨ column = size - 1)).

(** The 2x2 blocks at the four corners. *)
Definition corner_block (size row column : Z) : bool :=
  bool_decide (row = 0 ∨ row = 1 ∨ row = size - 2 ∨ row = size - 1) &&
  bool_decide (column = 0 ∨ column = 1 ∨
               column = size - 2 ∨ column = size - 1).

(** Boards reachable from [board0] by applying moves the finder returns. *)
Inductive reachable (size : Z) (board0 : Board) : Board → Prop :=
  | reachable_refl : reachable size board0 board0
  | reachable_step board offset move board' :
      reachable size board0 board →
      get_move size board offset = Ok (Some move) →
      do_move board move = Ok board' →
      reachable size board0 board'.

(** ** Auxiliary notions of the proofs *)

Definition in_range (size : Z) (rc : Coordinate) : Prop :=
  0 ≤ rc.1 < size ∧ 0 ≤ rc.2 < size.

(** The board with each of the listed cells overwritten by [cell]. *)
Definition put_all (cell : FieldState) (cells : list Coordinate) (board : Board)
  : Board :=
  foldl (λ board rc, put board rc.1 rc.2 cell) board cells.

(** The board after the two nested loops that fill it. *)
Definition filled (size : Z) : Board :=
  replicate (Z.to_nat size) (replicate (Z.to_nat size) OCCUPIED).

(** The cells [make_board] overwrites, in the order of the writes. *)
Definition cutouts (size : Z) : list Coordinate :=
  [(0, 0); (0, 1); (0, size - 2); (0, size - 1);
   (size - 1, 0); (size - 1, 1); (size - 1, size - 2); (size - 1, size - 1);
   (1, 0); (1, size - 1); (size - 2, 0); (size - 2, size - 1)].

(** The index [get_move] computes from a loop counter. *)
Definition offsetted (size offset i : Z) : Z := wrap (i + offset) mod size.

(** The board a valid move leaves behind. *)
Definition moved (board : Board) (move : Move) : Board :=
  put (put (put board (from move).1 (from move).2 EMPTY)
           (to move).1 (to move).2 OCCUPIED)
      (over move).1 (over move).2 EMPTY.

(** ** Printing

    [operator<<] on a [std::ostream] is modelled by the text it appends to
    the stream; [os << a << b] appends the text of [a], then that of [b]. *)

Definition newline : string := String "010"%char EmptyString.

(** A range-based [for] loop whose body prints. *)
Fixpoint print_each {A : Type} (xs : list A) (body : A → string) : string :=
  match xs with
  | [] => ""
  | x :: xs' => body x +:+ print_each xs' body
  end.

(** [operator<<(std::ostream &, const Board<size> &)].  The [default]
    branch of the [switch] throws for a value outside the enumeration;
    [FieldState] has no such value. *)
Definition print_board (board : Board) : string :=
  print_each board (λ row,
    print_each row (λ cell,
      match cell with
      | UNUSABLE => " "
      | EMPTY => "."
      | OCCUPIED => "@"
      end) +:+ newline).

(** [os << n] for a [size_t]: decimal digits, no sign, no padding. *)
Definition print_size_t (n : Z) : string :=
  NilZero.string_of_uint (N.to_uint (Z.to_N n)).

(** [operator<<(std::ostream &, const Move &)]. *)
Definition print_move (move : Move) : string :=
  let '(from_row, from_column) := from move in
  let '(to_row, to_column) := to move in
  "(" +:+ print_size_t from_row +:+ ", " +:+ print_size_t from_column
  +:+ ") ~> (" +:+ print_size_t to_row +:+ ", " +:+ print_size_t to_column
  +:+ ")".

(** [os << n] for an [int]. *)
Definition print_int (n : Z) : string := NilZero.string_of_int (Z.to_int n).

(** ** run_simulation as a call in a process

    [srand] and [rand] share one generator state, owned by the process and
    left behind by whatever ran before.  Here [run_simulation(seed,
    print_run)] is the whole function, entered with the process-wide
    generator in the state [g]: the text it writes to [std::cout] is
    collected, and the generator is handed back as the call leaves it.
    [system("clear")] and [sleep_for] act on the terminal and the clock and
    touch neither the generator nor [std::cout]. *)

Section Process.

Variable RandState : Type.
Variable srand : Z → RandState.
Variable rand : RandState → Z * RandState.

(** [srand(seed)]: the generator state [g] found on entry is replaced. *)
Definition srand_call (seed : Z) (g : RandState) : RandState :=
  (* srand takes an unsigned int *)
  srand (seed mod 2 ^ 32).

(** The local variables of [run_simulation], the process-wide generator
    and the text written to [std::cout] so far. *)
Record Run : Type := mkRun {
  run_board : Board;
  run_generator : RandState;
  run_possible_move : option Move;
  run_history : list Move;
  run_score : Z;
  run_cout : string
}.

(** The statements before the [while] loop. *)
Definition run_start (seed : Z) (print_run : bool) (g : RandState)
  : outcome Run :=
  let g := srand_call seed g in
  let move_history : list Move := [] in
  board ← make_board board_size;
  let '(randomized_offset, g) := draw_offset rand g in
  possible_move ← get_move board_size board randomized_offset;
  let out := if print_run then print_board board else "" in
  let score := board_size * board_size - 13 in
  Ok (mkRun board g possible_move move_history score out).

(** One pass through the body of the [while] loop. *)
Definition run_pass (print_run : bool) (r : Run) (move : Move) : outcome Run :=
  board ← do_move (run_board r) move;
  let move_history := run_history r ++ [move] in
  let out :=
    if print_run then run_cout r +:+ print_board board else run_cout r in
  let '(randomized_offset, g) := draw_offset rand (run_generator r) in
  possible_move ← get_move board_size board randomized_offset;
  Ok (mkRun board g possible_move move_history (run_score r - 1) out).

(** [while (possible_move) { ... }], at most [fuel] passes. *)
Fixpoint run_loop (fuel : nat) (print_run : bool) (r : Run)
  : option (outcome Run) :=
  match run_possible_move r with
  | None => Some (Ok r)
  | Some move =>
      match fuel with
      | O => None
      | S fuel' =>
          match run_pass print_run r move with
          | Ok r' => run_loop fuel' print_run r'
          | Abort why => Some (Abort why)
          end
      end
  end.

(** The loop that prints the moves: [sep] is empty before the first move
    and [" ; "] from then on. *)
Fixpoint print_moves (sep : string) (move_history : list Move) : string :=
  match move_history with
  | [] => ""
  | move :: rest => sep +:+ print_move move +:+ print_moves " ; " rest
  end.

(** The text of the final [if (print_run) { ... }]. *)
Definition print_summary (seed : Z) (r : Run) : string :=
  "Using seed " +:+ print_size_t seed +:+ "." +:+ newline
  +:+ "Ended with " +:+ print_int (run_score r)
  +:+ " matches remaining. Took "
  +:+ print_size_t (Z.of_nat (length (run_history r))) +:+ " moves:" +:+ newline
  +:+ print_moves "" (run_history r) +:+ newline.

(** The whole call.  The value returned is [run_score]; the record also
    shows the move history, the generator and the text as they are when the
    function returns. *)
Definition run_simulation_call (fuel : nat) (seed : Z) (print_run : bool)
    (g : RandState) : option (outcome Run) :=
  match run_start seed print_run g with
  | Abort why => Some (Abort why)
  | Ok r =>
      match run_loop fuel print_run r with
      | None => None
      | Some (Abort why) => Some (Abort why)
      | Some (Ok r') =>
          let out :=
            if print_run then run_cout r' +:+ print_summary seed r'
            else run_cout r' in
          Some (Ok (mkRun (run_board r') (run_generator r')
                          (run_possible_move r') (run_history r')
                          (run_score r') out))
      end
  end.

(** The variables the run shares with [Simulation]. *)
Definition sim_of (r : Run) : Simulation RandState :=
  mkSimulation (run_board r) (run_generator r) (run_possible_move r)
               (run_history r) (run_score r).

End Process.

Arguments run_board {RandState} _.
Arguments run_generator {RandState} _.
Arguments run_possible_move {RandState} _.
Arguments run_history {RandState} _.
Arguments run_score {RandState} _.
Arguments run_cout {RandState} _.
Arguments mkRun {RandState} _ _ _ _ _ _.
Arguments srand_call {RandState} _ _ _.
Arguments run_start {RandState} _ _ _ _ _.
Arguments run_pass {RandState} _ _ _ _.
Arguments run_loop {RandState} _ _ _ _.
Arguments print_summary {RandState} _ _.
Arguments run_simulation_call {RandState} _ _ _ _ _ _.
Arguments sim_of {RandState} _.

(** ** The seed search of main

    The block [if (find) { ... }] of [main].  [time(nullptr)] is an input
    of the program: [time n] is what its [n]-th call returns.  The calls of
    [run_simulation] get the fuel [simulation_fuel], which is enough for
    every run. *)

Definition INT_MAX : Z := 2 ^ 31 - 1.
Definition granularity : Z := 100000.
Definition simulation_fuel : nat := 80.

Section Search.

Variable RandState : Type.
Variable srand : Z → RandState.
Variable rand : RandState → Z * RandState.
Variable time : nat → Z.

(** The variables of the block, the process-wide generator, the number of
    calls of [time] so far and the text written to [std::cout]. *)
Record Search : Type := mkSearch {
  search_generator : RandState;
  time_calls : nat;
  seed : Z;
  last_score : Z;
  n_iterations : Z;
  best_score : Z;
  best_seed : Z;
  cout : string
}.

(** The declarations and the [srand(time(nullptr))] before the loop. *)
Definition search_start (seed0 : Z) (calls : nat) (out : string) : Search :=
  let score := 0 in
  let n_iterations := 0 in
  let best_score := INT_MAX in
  let best_seed := 0 in
  let g := srand (time calls mod 2 ^ 32) in
  mkSearch g (S calls) seed0 score n_iterations best_score best_seed out.

(** One pass through the body of the [do ... while] loop.
    [run_simulation] seeds the process-wide generator itself and leaves it
    in the state its last draw produced. *)
Definition search_pass (st : Search) : option (outcome Search) :=
  let '(r, _) := rand (search_generator st) in
  let seed := wrap r in
  match simulate srand rand simulation_fuel seed with
  | None => None
  | Some (Abort why) => Some (Abort why)
  | Some (Ok run) =>
      let score := score run in
      let g := generator run in
      let n_iterations := n_iterations st + 1 in
      let '(best_score, best_seed) :=
        if bool_decide (score < best_score st) then (score, seed)
        else (best_score st, best_seed st) in
      if bool_decide (n_iterations mod granularity = 0) then
        let out :=
          cout st +:+ "best score in " +:+ print_int n_iterations
          +:+ " runs is " +:+ print_int best_score
          +:+ " for seed " +:+ print_size_t best_seed +:+ newline in
        let g := srand (time (time_calls st) mod 2 ^ 32) in
        Some (Ok (mkSearch g (S (time_calls st)) seed score 0 INT_MAX 0 out))
      else
        Some (Ok (mkSearch g (time_calls st) seed score n_iterations
                           best_score best_seed (cout st)))
  end.

(** [do { ... } while (score != 1);], at most [fuel] passes. *)
Fixpoint search_loop (fuel : nat) (st : Search) : option (outcome Search) :=
  match fuel with
  | O => None
  | S fuel' =>
      match search_pass st with
      | Some (Ok st') =>
          if bool_decide (last_score st' ≠ 1) then search_loop fuel' st'
          else Some (Ok st')
      | r => r
      end
  end.

(** The whole block: the text on [std::cout] and the value returned. *)
Definition find_seed (fuel : nat) (seed0 : Z) (calls : nat) (out : string)
  : option (outcome (string * Z)) :=
  match search_loop fuel (search_start seed0 calls out) with
  | None => None
  | Some (Abort why) => Some (Abort why)
  | Some (Ok st) =>
      Some (Ok (cout st +:+ "* * * winning seed is: "
                +:+ print_size_t (seed st) +:+ newline, 0))
  end.

(** The states of the search: before the loop and after every pass the
    loop makes. *)
Inductive searched (seed0 : Z) (calls : nat) (out : string) : Search → Prop :=
  | searched_start : searched seed0 calls out (search_start seed0 calls out)
  | searched_pass st st' :
      searched seed0 calls out st →
      last_score st ≠ 1 →
      search_pass st = Some (Ok st') →
      searched seed0 calls out st'.

(** What holds of the tracked best between passes. *)
Definition search_inv (st : Search) : Prop :=
  0 ≤ n_iterations st < granularity ∧
  ((n_iterations st = 0 ∧ best_score st = INT_MAX ∧ best_seed st = 0) ∨
   (0 < n_iterations st ∧
    1 ≤ best_score st ≤ 67 ∧
    best_score st ≤ last_score st ∧
    run_simulation srand rand simulation_fuel (best_seed st)
      = Some (Ok (best_score st)))).

End Search.

Arguments search_generator {RandState} _.
Arguments time_calls {RandState} _.
Arguments seed {RandState} _.
Arguments last_score {RandState} _.
Arguments n_iterations {RandState} _.
Arguments best_score {RandState} _.
Arguments best_seed {RandState} _.
Arguments cout {RandState} _.
Arguments mkSearch {RandState} _ _ _ _ _ _ _ _.
Arguments search_start {RandState} _ _ _ _ _.
Arguments search_pass {RandState} _ _ _ _.
Arguments search_loop {RandState} _ _ _ _ _.
Arguments find_seed {RandState} _ _ _ _ _ _ _.
Arguments searched {RandState} _ _ _ _ _ _ _.
Arguments search_inv {RandState} _ _ _.

(** Decimal digits, and texts made of them. *)
Definition is_digit (c : ascii) : bool :=
  bool_decide (c ∈ ["0"; "1"; "2"; "3"; "4"; "5"; "6"; "7"; "8"; "9"]%char).

Fixpoint all_digits (s : string) : bool :=
  match s with
  | EmptyString => true
  | String c s' => is_digit c && all_digits s'
  end.

(** Every coordinate of a board of side [size], row by row. *)
Definition all_cells (size : Z) : list Coordinate :=
  row ← seqZ 0 size; column ← seqZ 0 size; [(row, column)].

(** ** Concrete boards and runs *)

(** The board [make_board<9>()] returns. *)
Definition initial_board : Board :=
  let U := UNUSABLE in let E := EMPTY in let O := OCCUPIED in
  [[U; U; O; O; O; O; O; U; U];
   [U; O; O; O; O; O; O; O; U];
   [O; O; O; O; O; O; O; O; O];
   [O; O; O; O; O; O; O; O; O];
   [O; O; O; O; E; O; O; O; O];
   [O; O; O; O; O; O; O; O; O];
   [O; O; O; O; O; O; O; O; O];
   [U; O; O; O; O; O; O; O; U];
   [U; U; O; O; O; O; O; U; U]].

(** The same cross with two pegs only, side by side in the last row. *)
Definition lone_pair : Board :=
  let U := UNUSABLE in let E := EMPTY in let O := OCCUPIED in
  [[U; U; E; E; E; E; E; U; U];
   [U; E; E; E; E; E; E; E; U];
   [E; E; E; E; E; E; E; E; E];
   [E; E; E; E; E; E; E; E; E];
   [E; E; E; E; E; E; E; E; E];
   [E; E; E; E; E; E; E; E; E];
   [E; E; E; E; E; E; E; E; E];
   [U; E; E; E; E; E; E; E; U];
   [U; U; E; O; O; E; E; U; U]].

(** The board [make_board<3>()] returns. *)
Definition board_of_three : Board :=
  [[UNUSABLE; UNUSABLE; UNUSABLE];
   [UNUSABLE; EMPTY; UNUSABLE];
   [UNUSABLE; UNUSABLE; UNUSABLE]].

(** The largest [size_t]. *)
Definition SIZE_MAX : Z := 2 ^ size_t_bits - 1.

(** A move onto an occupied cell: (4,1) over (4,2) to (4,3) on the
    initial board. *)
Definition crowded_move : Move := mkMove (4, 1) (4, 3).

(** * Properties *)

(** ** Reading and writing cells *)

Lemma get_from_board_Some size (board : Board) row column cell :
  get_from_board size board row column = Some cell →
  0 ≤ row < size ∧ 0 ≤ column < size ∧
  ∃ r, board !! Z.to_nat row = Some r ∧ r !! Z.to_nat column = Some cell.
Proof.
  unfold get_from_board. case_bool_decide as Hb; [done|].
  intros H. split; [lia|]. split; [lia|].
  destruct (board !! Z.to_nat row) as [r|] eqn:Hr; [|done].
  exists r. done.
Qed.

Lemma get_from_board_lookup size (board : Board) row column r :
  0 ≤ row < size → 0 ≤ column < size →
  board !! Z.to_nat row = Some r →
  get_from_board size board row column = r !! Z.to_nat column.
Proof.
  intros Hr Hc Hl. unfold get_from_board.
  rewrite bool_decide_eq_false_2 by lia. by rewrite Hl.
Qed.

Lemma get_from_board_wf size (board : Board) row column :
  wf_board size board → 0 ≤ row < size → 0 ≤ column < size →
  is_Some (get_from_board size board row column).
Proof.
  intros [Hlen Hrows] Hr Hc.
  destruct (lookup_lt_is_Some_2 board (Z.to_nat row)) as [r Hl]; [lia|].
  rewrite (get_from_board_lookup _ _ _ _ r) by done.
  apply lookup_lt_is_Some_2.
  rewrite Forall_lookup in Hrows. specialize (Hrows _ _ Hl). simpl in Hrows. lia.
Qed.

Lemma get_from_board_at size (board : Board) row column cell :
  get_from_board size board row column = Some cell →
  at_ board row column = Ok cell.
Proof.
  intros H. apply get_from_board_Some in H as (Hr & Hc & r & Hl & Hx).
  unfold at_. rewrite bool_decide_eq_true_2 by lia. by rewrite Hl, Hx.
Qed.

Lemma get_from_board_put size (board : Board) row column cell old row' column' :
  get_from_board size board row column = Some old →
  get_from_board size (put board row column cell) row' column' =
    if bool_decide (row' = row ∧ column' = column) then Some cell
    else get_from_board size board row' column'.
Proof.
  intros H. apply get_from_board_Some in H as (Hr & Hc & r & Hl & Hx).
  unfold put. rewrite Hl. unfold get_from_board at 1.
  case_bool_decide as Hout.
  { rewrite bool_decide_eq_false_2 by lia.
    unfold get_from_board. by rewrite bool_decide_eq_true_2. }
  destruct (decide (row' = row)) as [->|Hne].
  - rewrite list_lookup_insert_eq by (by eapply lookup_lt_Some). simpl.
    case_bool_decide as Hsame.
    + destruct Hsame as [_ ->].
      apply list_lookup_insert_eq. by eapply lookup_lt_Some.
    + rewrite list_lookup_insert_ne by (intros E; apply Z2Nat.inj in E; lia).
      by rewrite (get_from_board_lookup _ _ _ _ r) by (done || lia).
  - rewrite list_lookup_insert_ne by (intros E; apply Z2Nat.inj in E; lia).
    rewrite bool_decide_eq_false_2 by tauto.
    unfold get_from_board. by rewrite bool_decide_eq_false_2.
Qed.

Lemma wf_board_put size (board : Board) row column cell :
  wf_board size board → wf_board size (put board row column cell).
Proof.
  intros [Hlen Hrows]. unfold put.
  destruct (board !! Z.to_nat row) as [r|] eqn:Hl; [|done].
  split; [by rewrite length_insert|].
  apply Forall_insert; [done|]. rewrite length_insert.
  rewrite Forall_lookup in Hrows. apply (Hrows _ _ Hl).
Qed.

Lemma store_put size (board : Board) row column cell :
  wf_board size board → 0 ≤ row < size → 0 ≤ column < size →
  store board row column cell = Ok (put board row column cell).
Proof.
  intros Hwf Hr Hc.
  destruct (get_from_board_wf size board row column) as [old Hold]; try done.
  unfold store. by rewrite (get_from_board_at _ _ _ _ _ Hold).
Qed.

Lemma get_from_board_put_wf size (board : Board) row column cell row' column' :
  wf_board size board → 0 ≤ row < size → 0 ≤ column < size →
  get_from_board size (put board row column cell) row' column' =
    if bool_decide (row' = row ∧ column' = column) then Some cell
    else get_from_board size board row' column'.
Proof.
  intros Hwf Hr Hc.
  destruct (get_from_board_wf size board row column) as [old Hold]; try done.
  by eapply get_from_board_put.
Qed.

(** ** Counting cells *)

Arguments accumulate : simpl never.
Arguments count_if : simpl never.

Lemma accumulate_init xs init : accumulate xs init = init + accumulate xs 0.
Proof.
  unfold accumulate. revert init.
  induction xs as [|x xs IH]; intros init; simpl; [lia|].
  rewrite (IH (init + x)), (IH (0 + x)). lia.
Qed.

Lemma accumulate_cons x xs : accumulate (x :: xs) 0 = x + accumulate xs 0.
Proof. unfold accumulate at 1. simpl. apply accumulate_init. Qed.

Lemma accumulate_insert xs i old new :
  xs !! i = Some old →
  accumulate (<[i := new]> xs) 0 = accumulate xs 0 - old + new.
Proof.
  revert i. induction xs as [|x xs IH]; intros [|i] H; try done; simpl in *.
  - injection H as ->. rewrite !accumulate_cons. lia.
  - rewrite !accumulate_cons, (IH _ H). lia.
Qed.

Lemma accumulate_replicate n k : accumulate (replicate n k) 0 = Z.of_nat n * k.
Proof.
  induction n as [|n IH]; [done|].
  simpl replicate. rewrite accumulate_cons, IH. lia.
Qed.

Lemma accumulate_nonneg xs :
  Forall (λ x, 0 ≤ x) xs → 0 ≤ accumulate xs 0.
Proof.
  induction 1 as [|x xs Hx _ IH]; [done|]. rewrite accumulate_cons. lia.
Qed.

Lemma count_if_cons {A} (p : A → bool) x v :
  count_if p (x :: v) = Z.b2z (p x) + count_if p v.
Proof.
  unfold count_if. rewrite filter_cons.
  destruct (p x); simpl; lia.
Qed.

Lemma count_if_insert {A} (p : A → bool) (v : list A) i old new :
  v !! i = Some old →
  count_if p (<[i := new]> v) = count_if p v - Z.b2z (p old) + Z.b2z (p new).
Proof.
  revert i. induction v as [|x v IH]; intros [|i] H; try done; simpl in *.
  - injection H as ->. rewrite !count_if_cons. lia.
  - rewrite !count_if_cons, (IH _ H). lia.
Qed.

Lemma count_if_replicate {A} (p : A → bool) n x :
  count_if p (replicate n x) = Z.of_nat n * Z.b2z (p x).
Proof.
  induction n as [|n IH]; [done|].
  simpl replicate. rewrite count_if_cons, IH. lia.
Qed.

Lemma count_if_nonneg {A} (p : A → bool) v : 0 ≤ count_if p v.
Proof. unfold count_if. lia. Qed.

Lemma get_score_count_cells board : get_score board = count_cells OCCUPIED board.
Proof. reflexivity. Qed.

Lemma count_cells_nonneg s board : 0 ≤ count_cells s board.
Proof.
  unfold count_cells. apply accumulate_nonneg, Forall_fmap, Forall_true.
  intros v. apply count_if_nonneg.
Qed.

Lemma count_cells_put size (board : Board) row column cell old s :
  get_from_board size board row column = Some old →
  count_cells s (put board row column cell) =
    count_cells s board - Z.b2z (bool_decide (old = s))
                        + Z.b2z (bool_decide (cell = s)).
Proof.
  intros H. apply get_from_board_Some in H as (Hr & Hc & r & Hl & Hx).
  unfold put, count_cells. rewrite Hl, list_fmap_insert.
  erewrite accumulate_insert by (by rewrite list_lookup_fmap, Hl).
  rewrite (count_if_insert _ _ _ old) by done. lia.
Qed.

(** ** The initial board *)

Lemma bind_Ok {A B} (f : A → outcome B) (a : A) : (Ok a ≫= f) = f a.
Proof. reflexivity. Qed.

Lemma Ok_inj {A} (a b : A) : Ok a = Ok b → a = b.
Proof. by intros [= ->]. Qed.

Lemma wrap_small z : 0 ≤ z < 2 ^ size_t_bits → wrap z = z.
Proof. intros H. unfold wrap. by apply Z.mod_small. Qed.

Lemma filled_fmap size :
  (λ row : list FieldState, (λ _, OCCUPIED) <$> row) <$>
    replicate (Z.to_nat size) (replicate (Z.to_nat size) UNUSABLE)
  = filled size.
Proof. unfold filled. by rewrite !fmap_replicate. Qed.

Lemma wf_board_filled size : 0 ≤ size → wf_board size (filled size).
Proof.
  intros H. unfold filled. split.
  - rewrite length_replicate. lia.
  - apply Forall_replicate. rewrite length_replicate. lia.
Qed.

Lemma get_from_board_filled size row column :
  0 ≤ row < size → 0 ≤ column < size →
  get_from_board size (filled size) row column = Some OCCUPIED.
Proof.
  intros Hr Hc. unfold filled.
  rewrite (get_from_board_lookup _ _ _ _ (replicate (Z.to_nat size) OCCUPIED));
    try done; apply lookup_replicate_2; lia.
Qed.

Lemma count_cells_filled s size :
  0 ≤ size →
  count_cells s (filled size) = size * size * Z.b2z (bool_decide (OCCUPIED = s)).
Proof.
  intros H. unfold count_cells, filled.
  rewrite fmap_replicate, accumulate_replicate, count_if_replicate.
  rewrite Z2Nat.id by done. ring.
Qed.

Lemma wf_board_put_all size cell cells board :
  wf_board size board → wf_board size (put_all cell cells board).
Proof.
  unfold put_all. revert board.
  induction cells as [|rc cells IH]; intros board H; [done|].
  simpl. by apply IH, wf_board_put.
Qed.

Lemma make_board_puts size :
  size mod 2 = 1 → 3 ≤ size < 2 ^ size_t_bits →
  make_board size =
    Ok (put (put_all UNUSABLE (cutouts size) (filled size))
            (size / 2) (size / 2) EMPTY).
Proof.
  intros Hodd Hsize. unfold make_board.
  rewrite (proj2 (Z.eqb_eq _ _) Hodd). cbn [negb].
  rewrite filled_fmap, !wrap_small by lia.
  assert (0 ≤ size / 2 < size)
    by (split; [apply Z.div_pos | apply Z.div_lt_upper_bound]; lia).
  pose proof (wf_board_filled size ltac:(lia)) as Hwf.
  cbn [for_each_do].
  repeat (rewrite (store_put size), ?bind_Ok;
          [|repeat apply wf_board_put; exact Hwf|lia|lia]).
  reflexivity.
Qed.

Lemma get_from_board_put_all size cell cells board row column :
  wf_board size board → Forall (in_range size) cells →
  get_from_board size (put_all cell cells board) row column =
    if bool_decide ((row, column) ∈ cells) then Some cell
    else get_from_board size board row column.
Proof.
  unfold put_all. intros Hwf Hcells. revert board Hwf.
  induction Hcells as [|[r c] cells [Hr Hc] _ IH]; intros board Hwf; [done|].
  cbn [foldl]. rewrite IH by (by apply wf_board_put).
  rewrite (get_from_board_put_wf size) by done. simpl.
  repeat case_bool_decide; try done;
    match goal with
    | H : context [_ ∈ _ :: _] |- _ =>
        rewrite elem_of_cons, pair_equal_spec in H; tauto
    end.
Qed.

Lemma count_cells_put_all size cell old cells board s :
  wf_board size board → NoDup cells →
  Forall (λ rc, get_from_board size board rc.1 rc.2 = Some old) cells →
  count_cells s (put_all cell cells board) =
    count_cells s board +
    Z.of_nat (length cells) *
      (Z.b2z (bool_decide (cell = s)) - Z.b2z (bool_decide (old = s))).
Proof.
  unfold put_all. intros Hwf Hnd. revert board Hwf.
  induction Hnd as [|[r c] cells Hnotin _ IH]; intros board Hwf Hold.
  { simpl. lia. }
  apply Forall_cons_1 in Hold as [Hrc Hold]. simpl in Hrc.
  cbn [foldl]. rewrite IH.
  - rewrite (count_cells_put size _ _ _ _ old) by done.
    rewrite length_cons. simpl fst. simpl snd. lia.
  - by apply wf_board_put.
  - rewrite Forall_forall in Hold |- *. intros [r' c'] Hin. simpl.
    rewrite (get_from_board_put size _ _ _ _ old) by done.
    rewrite bool_decide_eq_false_2; [by apply (Hold (r', c'))|].
    intros [-> ->]. done.
Qed.

Lemma elem_of_cutouts size row column :
  (row, column) ∈ cutouts size ↔ corner size row column = true.
Proof.
  unfold cutouts, corner.
  rewrite orb_true_iff, !andb_true_iff, !bool_decide_eq_true.
  rewrite !elem_of_cons, elem_of_nil, !pair_equal_spec.
  split.
  - intros H. destruct_or!; destruct_and?; subst; try done; lia.
  - intros [[H1 H2]|[H1 H2]]; destruct_or!; subst; tauto.
Qed.

Lemma cutouts_in_range size : 3 ≤ size → Forall (in_range size) (cutouts size).
Proof.
  intros H. unfold cutouts, in_range.
  repeat (apply Forall_cons; split; [simpl; lia|]). apply Forall_nil_2.
Qed.

Lemma cutouts_NoDup size : 5 ≤ size → NoDup (cutouts size).
Proof.
  intros H. unfold cutouts.
  repeat (apply NoDup_cons_2;
          [rewrite ?not_elem_of_cons;
           repeat split; try apply not_elem_of_nil; intros [=]; lia|]).
  apply NoDup_nil_2.
Qed.

Lemma centre_bounds size :
  size mod 2 = 1 → 3 ≤ size → 1 ≤ size / 2 ≤ size - 2 ∧ 2 * (size / 2) = size - 1.
Proof. intros Hodd H. pose proof (Z.div_mod size 2). lia. Qed.

Lemma corner_centre size :
  size mod 2 = 1 → 3 ≤ size → corner size (size / 2) (size / 2) = false.
Proof.
  intros Hodd H. pose proof (centre_bounds size Hodd H). unfold corner.
  repeat case_bool_decide; simpl; try done; lia.
Qed.

Lemma make_board_wf size board :
  size mod 2 = 1 → 3 ≤ size < 2 ^ size_t_bits →
  make_board size = Ok board → wf_board size board.
Proof.
  intros Hodd H. rewrite make_board_puts by done. intros Heq%Ok_inj. subst board.
  apply wf_board_put, wf_board_put_all, wf_board_filled. lia.
Qed.

(** Every cell of the fresh board. *)
Lemma make_board_cells size board row column :
  size mod 2 = 1 → 3 ≤ size < 2 ^ size_t_bits →
  make_board size = Ok board →
  0 ≤ row < size → 0 ≤ column < size →
  get_from_board size board row column =
    Some (if corner size row column then UNUSABLE
          else if bool_decide (row = size / 2 ∧ column = size / 2) then EMPTY
          else OCCUPIED).
Proof.
  intros Hodd H. rewrite make_board_puts by done. intros Heq%Ok_inj Hr Hc. subst board.
  pose proof (centre_bounds size Hodd ltac:(lia)).
  pose proof (wf_board_filled size ltac:(lia)) as Hwf.
  rewrite (get_from_board_put_wf size)
    by (try apply wf_board_put_all; done || lia).
  rewrite get_from_board_put_all by (done || apply cutouts_in_range; lia).
  rewrite get_from_board_filled by done.
  case_bool_decide as Hcentre.
  - destruct Hcentre as [-> ->]. by rewrite corner_centre by (done || lia).
  - rewrite (bool_decide_ext _ _ (elem_of_cutouts size row column)).
    by destruct (corner size row column).
Qed.

(** How many cells of the fresh board are in state [s]. *)
Lemma make_board_count_cells size board s :
  size mod 2 = 1 → 5 ≤ size < 2 ^ size_t_bits →
  make_board size = Ok board →
  count_cells s board =
    size * size * Z.b2z (bool_decide (OCCUPIED = s))
    + 12 * (Z.b2z (bool_decide (UNUSABLE = s))
            - Z.b2z (bool_decide (OCCUPIED = s)))
    - Z.b2z (bool_decide (OCCUPIED = s)) + Z.b2z (bool_decide (EMPTY = s)).
Proof.
  intros Hodd H. rewrite make_board_puts by (done || lia). intros Heq%Ok_inj. subst board.
  pose proof (centre_bounds size Hodd ltac:(lia)).
  pose proof (wf_board_filled size ltac:(lia)) as Hwf.
  rewrite (count_cells_put size _ _ _ _ OCCUPIED).
  - rewrite (count_cells_put_all size _ OCCUPIED); try done.
    + rewrite count_cells_filled by lia. simpl length. lia.
    + apply cutouts_NoDup. lia.
    + eapply Forall_impl; [apply (cutouts_in_range size); lia|].
      intros [r c] [Hr Hc]. by apply get_from_board_filled.
  - rewrite get_from_board_put_all by (done || apply cutouts_in_range; lia).
    rewrite get_from_board_filled by lia.
    rewrite (bool_decide_ext _ _ (elem_of_cutouts size _ _)).
    by rewrite corner_centre by (done || lia).
Qed.

(** ** Loops that return *)

Lemma omap_cons {A B} (f : A → option B) x l :
  omap f (x :: l) = match f x with Some y => y :: omap f l | None => omap f l end.
Proof. reflexivity. Qed.

Lemma for_each_return_pure {A R} (xs : list A) (body : A → outcome (option R))
    (f : A → option R) :
  (∀ x, x ∈ xs → body x = Ok (f x)) →
  for_each_return xs body = Ok (head (omap f xs)).
Proof.
  induction xs as [|x xs IH]; intros H; [done|].
  cbn [for_each_return]. rewrite (H x) by apply list_elem_of_here.
  rewrite IH by (intros y Hy; apply H; by apply list_elem_of_further).
  rewrite omap_cons. by destruct (f x).
Qed.

Lemma for_each_return_Some {A R} (xs : list A) (body : A → outcome (option R)) r :
  for_each_return xs body = Ok (Some r) →
  ∃ x, x ∈ xs ∧ body x = Ok (Some r).
Proof.
  induction xs as [|x xs IH]; [done|]. cbn [for_each_return].
  destruct (body x) as [[r'|]|why] eqn:Hx; try done.
  - intros [= ->]. exists x. split; [apply list_elem_of_here|done].
  - intros H. destruct (IH H) as (y & Hy & Hb).
    exists y. split; [by apply list_elem_of_further|done].
Qed.

Lemma head_omap_filter {A B} (P : A → Prop) `{∀ x, Decision (P x)}
    (g : A → B) (l : list A) :
  head (omap (λ x, if decide (P x) then Some (g x) else None) l)
  = g <$> head (filter P l).
Proof.
  induction l as [|x l IH]; [done|].
  rewrite filter_cons, omap_cons. by destruct (decide (P x)).
Qed.

Lemma head_omap_is_Some {A B} (f : A → option B) (l : list A) :
  head (omap f l) = head (filter (λ x, is_Some (f x)) l) ≫= f.
Proof.
  induction l as [|x l IH]; [done|].
  rewrite filter_cons, omap_cons.
  destruct (f x) as [y|] eqn:Hx.
  - rewrite decide_True by eauto. simpl. by rewrite Hx.
  - rewrite decide_False by (by intros [? ?]). done.
Qed.

Lemma head_omap_bind {A B C} (f : B → option C) (k : A → list B) (l : list A) :
  head (omap f (l ≫= k)) = head (omap (λ x, head (omap f (k x))) l).
Proof.
  induction l as [|x l IH]; [done|].
  rewrite bind_cons, omap_app, omap_cons.
  destruct (omap f (k x)) as [|y ys]; simpl; [done|done].
Qed.

Lemma head_filter_None {A} (P : A → Prop) `{∀ x, Decision (P x)} (l : list A) :
  head (filter P l) = None ↔ ∀ x, x ∈ l → ¬ P x.
Proof.
  rewrite head_None. split.
  - intros Hnil x Hx HP.
    assert (x ∈ filter P l) as Hin by (by apply list_elem_of_filter).
    rewrite Hnil in Hin. by apply elem_of_nil in Hin.
  - intros Hall. destruct (filter P l) as [|x l'] eqn:E; [done|].
    assert (x ∈ filter P l) as Hin by (rewrite E; apply list_elem_of_here).
    apply list_elem_of_filter in Hin as [HP Hx]. by destruct (Hall x Hx).
Qed.

(** ** The move finder *)

Lemma offsetted_bounds size offset i :
  0 < size → 0 ≤ offsetted size offset i < size.
Proof. intros H. unfold offsetted. by apply Z.mod_pos_bound. Qed.

Lemma first_jump_alt size board cell :
  first_jump size board cell =
    head (omap (λ d, if decide (legal_jump size board cell d)
                     then Some (jump cell d) else None) directions).
Proof.
  rewrite head_omap_filter. unfold first_jump.
  by destruct (head (filter (legal_jump size board cell) directions)).
Qed.

Lemma first_jump_Some size board cell move :
  first_jump size board cell = Some move →
  ∃ d, d ∈ directions ∧ legal_jump size board cell d ∧ move = jump cell d.
Proof.
  unfold first_jump.
  destruct (head (filter (legal_jump size board cell) directions))
    as [d|] eqn:Hd; [|done].
  intros [= <-]. apply head_Some_elem_of, list_elem_of_filter in Hd as [Hl Hd].
  by exists d.
Qed.

Lemma first_jump_None size board cell :
  first_jump size board cell = None ↔
  ∀ d, d ∈ directions → ¬ legal_jump size board cell d.
Proof.
  unfold first_jump. split.
  - intros H. apply (head_filter_None (legal_jump size board cell)).
    by destruct (head (filter (legal_jump size board cell) directions)).
  - intros H. apply (head_filter_None (legal_jump size board cell)) in H.
    by rewrite H.
Qed.

(** The loop over the directions, entered from an occupied cell. *)
Lemma directions_loop size board row column :
  get_from_board size board row column = Some OCCUPIED →
  for_each_return directions (λ '(row_direction, column_direction),
    let next_to :=
      get_from_board size board (row + row_direction)
                     (column + column_direction) in
    if bool_decide (next_to ≠ Some OCCUPIED) then Ok None else
    let target_row := row + 2 * row_direction in
    let target_column := column + 2 * column_direction in
    let over_one := get_from_board size board target_row target_column in
    if bool_decide (over_one ≠ Some EMPTY) then Ok None else
    Ok (Some (mkMove (row, column) (target_row, target_column))))
  = Ok (first_jump size board (row, column)).
Proof.
  intros Hcell. rewrite first_jump_alt. apply for_each_return_pure.
  intros [dr dc] _. unfold legal_jump, jump. cbn [fst snd].
  repeat case_bool_decide; case_decide; try done; exfalso; tauto.
Qed.

(** [get_move] on a well-formed board never aborts, and what it returns:
    the first jump of the first scanned cell that has one. *)
Lemma get_move_scan size board offset :
  wf_board size board →
  get_move size board offset =
    Ok (head (omap (λ row,
          head (omap (λ column,
            first_jump size board (offsetted size offset.1 row,
                                   offsetted size offset.2 column))
            (seqZ 0 size)))
          (seqZ 0 size))).
Proof.
  intros Hwf. unfold get_move. destruct offset as [row_offset column_offset].
  apply for_each_return_pure. intros row Hrow%elem_of_seqZ.
  apply for_each_return_pure. intros column Hcolumn%elem_of_seqZ.
  cbn [fst snd]. fold (offsetted size row_offset row).
  fold (offsetted size column_offset column).
  pose proof (offsetted_bounds size row_offset row ltac:(lia)) as Hr.
  pose proof (offsetted_bounds size column_offset column ltac:(lia)) as Hc.
  destruct (get_from_board_wf size board _ _ Hwf Hr Hc) as [cell Hcell].
  rewrite Hcell. rewrite (bool_decide_eq_true_2 (is_Some _)) by (by eexists).
  cbn [assert].
  rewrite bind_Ok. case_bool_decide as Hocc.
  - injection Hocc as ->. by apply directions_loop.
  - symmetry. f_equal. apply first_jump_None. intros d _ [Horigin _].
    cbn [fst snd] in Horigin. congruence.
Qed.

Lemma omap_ext_in {A B} (f g : A → option B) (l : list A) :
  (∀ x, x ∈ l → f x = g x) → omap f l = omap g l.
Proof.
  induction l as [|x l IH]; intros H; [done|].
  rewrite !omap_cons, (H x) by apply list_elem_of_here.
  rewrite IH by (intros y Hy; apply H; by apply list_elem_of_further). done.
Qed.

Lemma head_omap_None {A B} (f : A → option B) (l : list A) :
  head (omap f l) = None ↔ ∀ x, x ∈ l → f x = None.
Proof.
  induction l as [|x l IH].
  - split; [|done]. by intros _ x Hx%elem_of_nil.
  - rewrite omap_cons. destruct (f x) as [y|] eqn:Hx.
    + split; [done|]. intros H.
      specialize (H x (list_elem_of_here _ _)). congruence.
    + rewrite IH. split.
      * intros H z [->|Hz]%elem_of_cons; auto.
      * intros H z Hz. apply H. by apply list_elem_of_further.
Qed.

(** A returned move is a legal jump in one of the four directions; this
    needs nothing of the board. *)
Lemma get_move_legal_jump size board offset move :
  get_move size board offset = Ok (Some move) →
  ∃ cell d, d ∈ directions ∧ legal_jump size board cell d ∧ move = jump cell d.
Proof.
  unfold get_move. destruct offset as [row_offset column_offset].
  intros (row & _ & H)%for_each_return_Some.
  apply for_each_return_Some in H as (column & _ & H).
  revert H. fold (offsetted size row_offset row).
  fold (offsetted size column_offset column).
  generalize (offsetted size row_offset row) as r.
  generalize (offsetted size column_offset column) as c. intros c r.
  destruct (assert _); [|done]. rewrite bind_Ok.
  case_bool_decide as Hcell; [|done].
  intros ([dr dc] & Hd & H)%for_each_return_Some. revert H. cbn zeta.
  case_bool_decide as Hnext; [done|]. case_bool_decide as Hover; [done|].
  intros [= <-]. exists (r, c), (dr, dc). split; [done|]. split; [|done].
  unfold legal_jump. cbn [fst snd]. done.
Qed.

Lemma midpoint_jump a d : -1 ≤ d ≤ 1 → midpoint a (a + 2 * d) = a + d.
Proof.
  intros H. unfold midpoint. case_bool_decide.
  - replace (a + 2 * d - a) with (d * 2) by lia. rewrite Z.div_mul; lia.
  - replace (a - (a + 2 * d)) with (- d * 2) by lia. rewrite Z.div_mul; lia.
Qed.

Lemma legal_jump_valid_move size board cell d :
  d ∈ directions → legal_jump size board cell d →
  valid_move size board (jump cell d).
Proof.
  intros Hd (Horigin & Hnext & Hlanding).
  assert (-1 ≤ d.1 ≤ 1 ∧ -1 ≤ d.2 ≤ 1 ∧
          ((d.1 = 0 ∧ Z.abs d.2 = 1) ∨ (d.2 = 0 ∧ Z.abs d.1 = 1)))
    as (H1 & H2 & Haxis).
  { unfold directions in Hd.
    rewrite !elem_of_cons, elem_of_nil in Hd.
    destruct_or!; subst; simpl; try done; lia. }
  unfold valid_move, two_apart, over, jump. cbn [from to fst snd].
  rewrite !midpoint_jump by done. repeat split; try done. lia.
Qed.

(** ** The finder against the rotated scan of the specification *)

Lemma offsetted_rotated size offset i :
  0 ≤ offset → offset + size ≤ 2 ^ size_t_bits → 0 ≤ i < size →
  offsetted size offset i = rotated size offset i.
Proof.
  intros H0 H1 Hi. unfold offsetted, rotated. by rewrite wrap_small by lia.
Qed.

Lemma head_omap_rotated_scan {B} (f : Coordinate → option B) size offset :
  head (omap f (rotated_scan size offset)) =
    head (omap (λ row,
      head (omap (λ column,
        f (rotated size offset.1 row, rotated size offset.2 column))
        (seqZ 0 size)))
      (seqZ 0 size)).
Proof.
  unfold rotated_scan. rewrite head_omap_bind. f_equal.
  apply omap_ext_in. intros row _. rewrite head_omap_bind. f_equal.
  apply omap_ext_in. intros column _.
  rewrite omap_cons. by destruct (f _).
Qed.

Lemma first_jump_is_Some size board cell :
  is_Some (first_jump size board cell) ↔
  Exists (legal_jump size board cell) directions.
Proof.
  rewrite Exists_exists. split.
  - intros [move (d & Hd & Hl & _)%first_jump_Some]. eauto.
  - intros (d & Hd & Hl).
    destruct (first_jump size board cell) eqn:E; [done|].
    rewrite first_jump_None in E. by destruct (E d Hd).
Qed.

Lemma find_move_spec_alt size board offset :
  find_move_spec size board offset =
    head (omap (first_jump size board) (rotated_scan size offset)).
Proof.
  rewrite head_omap_is_Some. unfold find_move_spec.
  f_equal. f_equal. apply list_filter_iff. intros cell.
  symmetry. apply first_jump_is_Some.
Qed.

Lemma elem_of_rotated_scan size offset cell :
  cell ∈ rotated_scan size offset ↔ in_range size cell.
Proof.
  unfold rotated_scan, in_range, rotated. destruct cell as [r c].
  destruct offset as [o1 o2]. cbn [fst snd]. split.
  - intros (row & (column & Hcell & Hcolumn)%list_elem_of_bind & Hrow)
      %list_elem_of_bind.
    apply list_elem_of_singleton in Hcell as [= -> ->].
    apply elem_of_seqZ in Hrow, Hcolumn.
    split; apply Z.mod_pos_bound; lia.
  - intros [Hr Hc]. apply list_elem_of_bind.
    exists ((r - o1) mod size). split; [|apply elem_of_seqZ].
    + apply list_elem_of_bind.
      exists ((c - o2) mod size). split; [|apply elem_of_seqZ].
      * apply list_elem_of_singleton. f_equal.
        -- rewrite Zplus_mod_idemp_l.
           replace (r - o1 + o1) with r by lia. by rewrite Z.mod_small.
        -- rewrite Zplus_mod_idemp_l.
           replace (c - o2 + o2) with c by lia. by rewrite Z.mod_small.
      * pose proof (Z.mod_pos_bound (c - o2) size). lia.
    + pose proof (Z.mod_pos_bound (r - o1) size). lia.
Qed.

Lemma find_move_spec_None size board offset :
  find_move_spec size board offset = None ↔
  ∀ row column d,
    0 ≤ row < size → 0 ≤ column < size → d ∈ directions →
    ¬ legal_jump size board (row, column) d.
Proof.
  rewrite find_move_spec_alt, head_omap_None. split.
  - intros H row column d Hr Hc Hd.
    specialize (H (row, column)). rewrite first_jump_None in H.
    apply H; [|done]. by apply elem_of_rotated_scan.
  - intros H [row column] [Hr Hc]%elem_of_rotated_scan.
    apply first_jump_None. intros d Hd. by apply H.
Qed.

Lemma get_move_find_move_spec size board offset :
  wf_board size board →
  0 ≤ offset.1 → offset.1 + size ≤ 2 ^ size_t_bits →
  0 ≤ offset.2 → offset.2 + size ≤ 2 ^ size_t_bits →
  get_move size board offset = Ok (find_move_spec size board offset).
Proof.
  intros Hwf Hr0 Hr1 Hc0 Hc1. rewrite get_move_scan by done. f_equal.
  rewrite find_move_spec_alt, head_omap_rotated_scan. f_equal.
  apply omap_ext_in. intros row Hrow%elem_of_seqZ. f_equal.
  apply omap_ext_in. intros column Hcolumn%elem_of_seqZ.
  by rewrite !offsetted_rotated by lia.
Qed.

(** ** Applying a move *)

Lemma two_apart_over move :
  two_apart move →
  over move ≠ from move ∧ over move ≠ to move ∧ from move ≠ to move.
Proof.
  destruct move as [[fr fc] [tr tc]].
  unfold two_apart, over, midpoint. cbn [from to fst snd].
  intros H. repeat split; intros [= H1 H2]; revert H1 H2;
    repeat case_bool_decide; intros; Z.div_mod_to_equations; lia.
Qed.

Lemma get_from_board_moved size board move row column :
  valid_move size board move →
  get_from_board size (moved board move) row column =
    if bool_decide ((row, column) = over move) then Some EMPTY
    else if bool_decide ((row, column) = to move) then Some OCCUPIED
    else if bool_decide ((row, column) = from move) then Some EMPTY
    else get_from_board size board row column.
Proof.
  intros (Hfrom & Hto & Hapart & Hover).
  destruct (two_apart_over move Hapart) as (Hof & Hot & Hft).
  destruct move as [[fr fc] [tr tc]]. unfold moved, over in *.
  cbn [from to fst snd] in *.
  set (mr := midpoint fr tr) in *. set (mc := midpoint fc tc) in *.
  clearbody mr mc.
  assert (∀ r c, get_from_board size (put board fr fc EMPTY) r c =
            if bool_decide (r = fr ∧ c = fc) then Some EMPTY
            else get_from_board size board r c) as H1.
  { intros r c. by erewrite get_from_board_put. }
  assert (∀ r c,
            get_from_board size (put (put board fr fc EMPTY) tr tc OCCUPIED) r c =
            if bool_decide (r = tr ∧ c = tc) then Some OCCUPIED
            else get_from_board size (put board fr fc EMPTY) r c) as H2.
  { intros r c. erewrite get_from_board_put; [done|].
    rewrite H1, Hto. by case_bool_decide. }
  erewrite get_from_board_put.
  - rewrite H2, H1.
    rewrite pair_equal_spec in Hof, Hot, Hft.
    repeat case_bool_decide; try done; exfalso;
      repeat match goal with
             | H : (_, _) = (_, _) |- _ => apply pair_equal_spec in H
             | H : (_, _) ≠ (_, _) |- _ => rewrite pair_equal_spec in H
             end; lia.
  - rewrite H2, H1, Hover.
    rewrite !bool_decide_eq_false_2; [done| |]; intros [-> ->]; done.
Qed.

Lemma do_move_valid size board move :
  valid_move size board move → do_move board move = Ok (moved board move).
Proof.
  intros Hvalid. pose proof Hvalid as (Hfrom & Hto & Hapart & Hover).
  destruct (two_apart_over move Hapart) as (Hof & Hot & Hft).
  destruct move as [[fr fc] [tr tc]]. unfold do_move, moved, over in *.
  cbn [from to fst snd] in *.
  set (mr := midpoint fr tr) in *. set (mc := midpoint fc tc) in *.
  clearbody mr mc.
  rewrite (get_from_board_at size board fr fc OCCUPIED) by done.
  rewrite bind_Ok, bool_decide_eq_true_2 by done. cbn [assert]. rewrite bind_Ok.
  assert (∀ r c, get_from_board size (put board fr fc EMPTY) r c =
            if bool_decide (r = fr ∧ c = fc) then Some EMPTY
            else get_from_board size board r c) as H1.
  { intros r c. by erewrite get_from_board_put. }
  rewrite (get_from_board_at size (put board fr fc EMPTY) tr tc EMPTY)
    by (rewrite H1, Hto; by case_bool_decide).
  rewrite bind_Ok.
  rewrite (get_from_board_at size (put board fr fc EMPTY) fr fc EMPTY)
    by (rewrite H1; by rewrite bool_decide_eq_true_2).
  rewrite bind_Ok, bool_decide_eq_true_2 by done. cbn [assert]. rewrite bind_Ok.
  rewrite (get_from_board_at size _ mr mc OCCUPIED); [done|].
  erewrite get_from_board_put by (rewrite H1, Hto; by case_bool_decide).
  rewrite H1, Hover.
  rewrite !bool_decide_eq_false_2; [done| |]; intros [-> ->]; done.
Qed.

Lemma get_score_moved size board move :
  valid_move size board move →
  get_score (moved board move) = get_score board - 1.
Proof.
  intros (Hfrom & Hto & Hapart & Hover).
  destruct (two_apart_over move Hapart) as (Hof & Hot & Hft).
  destruct move as [[fr fc] [tr tc]].
  change get_score with (count_cells OCCUPIED). unfold moved, over in *.
  cbn [from to fst snd] in *.
  set (mr := midpoint fr tr) in *. set (mc := midpoint fc tc) in *.
  clearbody mr mc.
  assert (∀ r c, get_from_board size (put board fr fc EMPTY) r c =
            if bool_decide (r = fr ∧ c = fc) then Some EMPTY
            else get_from_board size board r c) as H1.
  { intros r c. by erewrite get_from_board_put. }
  assert (get_from_board size (put board fr fc EMPTY) tr tc = Some EMPTY) as H2.
  { rewrite H1, Hto. by case_bool_decide. }
  rewrite (count_cells_put size _ _ _ _ OCCUPIED).
  - rewrite (count_cells_put size _ _ _ _ EMPTY) by done.
    rewrite (count_cells_put size _ _ _ _ OCCUPIED) by done.
    rewrite !(bool_decide_eq_true_2 (OCCUPIED = OCCUPIED)) by done.
    rewrite !(bool_decide_eq_false_2 (EMPTY = OCCUPIED)) by done.
    simpl Z.b2z. lia.
  - erewrite get_from_board_put by done. rewrite H1, Hover.
    rewrite !bool_decide_eq_false_2; [done| |]; intros [-> ->]; done.
Qed.

Lemma wf_board_moved size board move :
  wf_board size board → wf_board size (moved board move).
Proof. intros H. unfold moved. by do 3 apply wf_board_put. Qed.

(** ** The driver *)

Lemma get_move_valid_move size board offset move :
  get_move size board offset = Ok (Some move) → valid_move size board move.
Proof.
  intros (cell & d & Hd & Hlegal & ->)%get_move_legal_jump.
  by apply legal_jump_valid_move.
Qed.

Lemma make_board_board_size :
  ∃ board0, make_board board_size = Ok board0 ∧
            wf_board board_size board0 ∧
            get_score board0 = board_size * board_size - 13.
Proof.
  assert (board_size mod 2 = 1) as Hodd by done.
  assert (5 ≤ board_size < 2 ^ size_t_bits) as Hsize by done.
  eexists. split; [apply make_board_puts; done || lia|].
  split.
  - eapply make_board_wf; [done| |apply make_board_puts]; done || lia.
  - rewrite get_score_count_cells.
    rewrite (make_board_count_cells board_size _ OCCUPIED Hodd Hsize)
      by (apply make_board_puts; done || lia).
    done.
Qed.

Section DriverProperties.

Context {RandState : Type}.
Variable srand : Z → RandState.
Variable rand : RandState → Z * RandState.

Lemma simulation_start_inv seed :
  ∃ s, simulation_start srand rand seed = Ok s ∧ sim_inv s ∧
       make_board board_size = Ok (board s).
Proof.
  destruct make_board_board_size as (board0 & Hmake & Hwf & Hscore).
  unfold simulation_start. rewrite Hmake, bind_Ok.
  destruct (draw_offset rand (srand (seed mod 2 ^ 32))) as [offset g].
  rewrite (get_move_scan _ _ _ Hwf), bind_Ok.
  eexists. split; [done|]. split; [|done].
  split_and!; cbn [board score possible_move move_history]; try done.
  exists offset. by apply get_move_scan.
Qed.

Lemma simulation_step_inv s move :
  sim_inv s → possible_move s = Some move →
  valid_move board_size (board s) move ∧
  ∃ s', simulation_step rand s move = Ok s' ∧ sim_inv s' ∧
        board s' = moved (board s) move ∧
        move_history s' = move_history s ++ [move] ∧
        score s' = score s - 1.
Proof.
  intros (Hwf & Hscore & [offset Hmove] & Hlen) Hpossible.
  rewrite Hpossible in Hmove.
  pose proof (get_move_valid_move _ _ _ _ Hmove) as Hvalid.
  split; [done|].
  unfold simulation_step. rewrite (do_move_valid _ _ _ Hvalid), bind_Ok.
  destruct (draw_offset rand (generator s)) as [offset' g].
  pose proof (wf_board_moved _ _ move Hwf) as Hwf'.
  rewrite (get_move_scan _ _ _ Hwf'), bind_Ok.
  eexists. split; [done|].
  cbn [board score possible_move move_history].
  unfold sim_inv; cbn [board score possible_move move_history].
  split_and!; try done.
  - rewrite (get_score_moved _ _ _ Hvalid). lia.
  - exists offset'. by apply get_move_scan.
  - rewrite (get_score_moved _ _ _ Hvalid), length_app. simpl length. lia.
Qed.

Lemma reached_inv seed s : reached srand rand seed s → sim_inv s.
Proof.
  induction 1 as [s Hstart|s move s' _ IH Hpossible Hstep].
  - destruct (simulation_start_inv seed) as (s0 & Hs0 & Hinv & _). congruence.
  - destruct (simulation_step_inv s move IH Hpossible)
      as (_ & s1 & Hs1 & Hinv & _). congruence.
Qed.

(** The loop is left within as many passes as there are pegs. *)
Lemma simulation_loop_total fuel s :
  sim_inv s → get_score (board s) ≤ Z.of_nat fuel →
  ∃ s', simulation_loop rand fuel s = Some (Ok s') ∧
        sim_inv s' ∧ possible_move s' = None.
Proof.
  revert s. induction fuel as [|fuel IH]; intros s Hinv Hfuel.
  - cbn [simulation_loop].
    destruct (possible_move s) as [move|] eqn:Hpossible; [|by exists s].
    destruct (simulation_step_inv s move Hinv Hpossible)
      as (Hvalid & s' & _ & _ & Hboard & _).
    pose proof (get_score_moved _ _ _ Hvalid) as Hscore.
    pose proof (count_cells_nonneg OCCUPIED (moved (board s) move)).
    rewrite <-get_score_count_cells in *. lia.
  - cbn [simulation_loop].
    destruct (possible_move s) as [move|] eqn:Hpossible; [|by exists s].
    destruct (simulation_step_inv s move Hinv Hpossible)
      as (Hvalid & s' & Hstep & Hinv' & Hboard & _).
    rewrite Hstep. apply IH; [done|].
    rewrite Hboard, (get_score_moved _ _ _ Hvalid). lia.
Qed.

(** More fuel does not change a result. *)
Lemma simulation_loop_fuel fuel fuel' s r :
  simulation_loop rand fuel s = Some r → (fuel ≤ fuel')%nat →
  simulation_loop rand fuel' s = Some r.
Proof.
  revert fuel' s. induction fuel as [|fuel IH]; intros fuel' s.
  - cbn [simulation_loop]. destruct fuel'; cbn [simulation_loop];
      by destruct (possible_move s).
  - intros H Hle. destruct fuel' as [|fuel']; [lia|].
    cbn [simulation_loop] in *.
    destruct (possible_move s); [|done].
    destruct (simulation_step rand s m); [|done].
    apply IH; [done|lia].
Qed.

Lemma simulate_fuel fuel fuel' seed r :
  simulate srand rand fuel seed = Some r → (fuel ≤ fuel')%nat →
  simulate srand rand fuel' seed = Some r.
Proof.
  unfold simulate. destruct (simulation_start srand rand seed); [|done].
  apply simulation_loop_fuel.
Qed.

Lemma simulation_loop_reached seed fuel s s' :
  reached srand rand seed s →
  simulation_loop rand fuel s = Some (Ok s') →
  reached srand rand seed s' ∧ possible_move s' = None.
Proof.
  revert s. induction fuel as [|fuel IH]; intros s Hreached;
    cbn [simulation_loop];
    destruct (possible_move s) as [move|] eqn:Hpossible; try done.
  - intros [= <-]. done.
  - destruct (simulation_step rand s move) as [s1|] eqn:Hstep; [|done].
    apply IH. by eapply reached_step.
  - intros [= <-]. done.
Qed.

Lemma simulate_reached seed fuel s :
  simulate srand rand fuel seed = Some (Ok s) →
  reached srand rand seed s ∧ possible_move s = None.
Proof.
  unfold simulate.
  destruct (simulation_start srand rand seed) as [s0|] eqn:Hstart; [|done].
  apply simulation_loop_reached. by apply reached_start.
Qed.

Lemma simulate_total seed fuel :
  (Z.to_nat (board_size * board_size - 13) ≤ fuel)%nat →
  ∃ s, simulate srand rand fuel seed = Some (Ok s) ∧
       sim_inv s ∧ possible_move s = None.
Proof.
  intros Hfuel. unfold simulate.
  destruct (simulation_start_inv seed) as (s0 & -> & Hinv & _).
  apply simulation_loop_total; [done|].
  destruct Hinv as (_ & _ & _ & Hlen). unfold board_size in *. lia.
Qed.

End DriverProperties.

(** ** run_simulation as a call *)

Lemma for_each_return_ext {A R} (xs : list A)
    (body1 body2 : A → outcome (option R)) :
  (∀ x, body1 x = body2 x) →
  for_each_return xs body1 = for_each_return xs body2.
Proof.
  intros Hbody. induction xs as [|x xs IH]; [done|].
  cbn [for_each_return]. by rewrite Hbody, IH.
Qed.

(** [get_move] reads the board through [get_from_board] only. *)
Lemma get_move_ext size board1 board2 offset :
  (∀ row column,
     get_from_board size board1 row column =
     get_from_board size board2 row column) →
  get_move size board1 offset = get_move size board2 offset.
Proof.
  intros Hread. unfold get_move. destruct offset as [row_offset column_offset].
  apply for_each_return_ext. intros row.
  apply for_each_return_ext. intros column.
  rewrite Hread. destruct (assert _); [|done]. rewrite !bind_Ok.
  case_bool_decide; [|done].
  apply for_each_return_ext. intros [row_direction column_direction].
  by rewrite !Hread.
Qed.

Section ProcessProperties.

Context {RandState : Type}.
Variable srand : Z → RandState.
Variable rand : RandState → Z * RandState.

(** The generator state found on entry plays no part. *)
Lemma run_simulation_call_entry fuel seed print_run g1 g2 :
  run_simulation_call srand rand fuel seed print_run g1 =
  run_simulation_call srand rand fuel seed print_run g2.
Proof. reflexivity. Qed.

Lemma run_start_sim seed print_run g :
  match run_start srand rand seed print_run g with
  | Ok r => simulation_start srand rand seed = Ok (sim_of r)
  | Abort why => simulation_start srand rand seed = Abort why
  end.
Proof.
  unfold run_start, simulation_start, srand_call.
  destruct (make_board board_size) as [board|]; [|done]. rewrite !bind_Ok.
  destruct (draw_offset rand _) as [offset g'].
  by destruct (get_move board_size board offset).
Qed.

Lemma run_pass_sim print_run r move :
  match run_pass rand print_run r move with
  | Ok r' => simulation_step rand (sim_of r) move = Ok (sim_of r')
  | Abort why => simulation_step rand (sim_of r) move = Abort why
  end.
Proof.
  unfold run_pass, simulation_step, sim_of.
  cbn [board generator move_history score].
  destruct (do_move (run_board r) move) as [board|]; [|done]. rewrite !bind_Ok.
  destruct (draw_offset rand _) as [offset g'].
  by destruct (get_move board_size board offset).
Qed.

Lemma run_loop_sim fuel print_run r :
  match run_loop rand fuel print_run r with
  | None => simulation_loop rand fuel (sim_of r) = None
  | Some (Ok r') => simulation_loop rand fuel (sim_of r) = Some (Ok (sim_of r'))
  | Some (Abort why) => simulation_loop rand fuel (sim_of r) = Some (Abort why)
  end.
Proof.
  revert r. induction fuel as [|fuel IH]; intros r;
    cbn [run_loop simulation_loop];
    change (possible_move (sim_of r)) with (run_possible_move r);
    destruct (run_possible_move r) as [move|]; try done.
  pose proof (run_pass_sim print_run r move) as Hpass.
  destruct (run_pass rand print_run r move) as [r'|why]; rewrite Hpass; [|done].
  apply IH.
Qed.

Lemma run_simulation_call_sim fuel seed print_run g r :
  run_simulation_call srand rand fuel seed print_run g = Some (Ok r) →
  simulate srand rand fuel seed = Some (Ok (sim_of r)).
Proof.
  unfold run_simulation_call, simulate.
  pose proof (run_start_sim seed print_run g) as Hstart.
  destruct (run_start srand rand seed print_run g) as [r0|]; [|done].
  rewrite Hstart.
  pose proof (run_loop_sim fuel print_run r0) as Hloop.
  destruct (run_loop rand fuel print_run r0) as [[r1|]|]; try done.
  intros [= <-]. exact Hloop.
Qed.

Lemma run_simulation_call_total fuel seed print_run g :
  (80 ≤ fuel)%nat →
  ∃ r, run_simulation_call srand rand fuel seed print_run g = Some (Ok r).
Proof.
  intros Hfuel.
  destruct (simulate_total srand rand seed fuel) as (s & Hs & _);
    [unfold board_size; lia|].
  revert Hs. unfold run_simulation_call, simulate.
  pose proof (run_start_sim seed print_run g) as Hstart.
  destruct (run_start srand rand seed print_run g) as [r0|];
    rewrite Hstart; [|done].
  pose proof (run_loop_sim fuel print_run r0) as Hloop.
  destruct (run_loop rand fuel print_run r0) as [[r1|]|];
    rewrite Hloop; try done. eauto.
Qed.

(** More fuel does not change a result. *)
Lemma run_loop_fuel fuel fuel' print_run r res :
  run_loop rand fuel print_run r = Some res → (fuel ≤ fuel')%nat →
  run_loop rand fuel' print_run r = Some res.
Proof.
  revert fuel' r. induction fuel as [|fuel IH]; intros fuel' r.
  - cbn [run_loop]. destruct fuel'; cbn [run_loop];
      by destruct (run_possible_move r).
  - intros H Hle. destruct fuel' as [|fuel']; [lia|].
    cbn [run_loop] in *.
    destruct (run_possible_move r) as [move|]; [|done].
    destruct (run_pass rand print_run r move); [|done].
    apply IH; [done|lia].
Qed.

Lemma run_simulation_call_fuel fuel fuel' seed print_run g res :
  run_simulation_call srand rand fuel seed print_run g = Some res →
  (fuel ≤ fuel')%nat →
  run_simulation_call srand rand fuel' seed print_run g = Some res.
Proof.
  unfold run_simulation_call. intros H Hle.
  destruct (run_start srand rand seed print_run g) as [r0|]; [|done].
  destruct (run_loop rand fuel print_run r0) as [res0|] eqn:Hloop; [|done].
  by rewrite (run_loop_fuel _ _ _ _ _ Hloop Hle).
Qed.

End ProcessProperties.

(** * The claims *)

Lemma make_board_initial_board : make_board 9 = Ok initial_board.
Proof. vm_compute. reflexivity. Qed.

Lemma wf_board_initial_board : wf_board 9 initial_board.
Proof. split; [reflexivity|]. unfold initial_board. repeat constructor. Qed.

Lemma wf_board_lone_pair : wf_board 9 lone_pair.
Proof. split; [reflexivity|]. unfold lone_pair. repeat constructor. Qed.

(** C1 (as amended): for every well-formed board and every offset pair
    whose components stay below [2^64 - size] (so that adding a loop counter
    does not wrap around in [size_t]), [get_move] returns what the rotated
    row-major scan of the specification returns: the jump from the first
    rotated cell that admits one, in the first legal direction of the fixed
    order; and it returns no move exactly when no cell and direction of the
    board give a legal jump. *)
Theorem get_move_rotated_scan size board offset :
  wf_board size board →
  0 ≤ offset.1 → offset.1 + size ≤ 2 ^ size_t_bits →
  0 ≤ offset.2 → offset.2 + size ≤ 2 ^ size_t_bits →
  get_move size board offset = Ok (find_move_spec size board offset) ∧
  (get_move size board offset = Ok None ↔
   ∀ row column d,
     0 ≤ row < size → 0 ≤ column < size → d ∈ directions →
     ¬ legal_jump size board (row, column) d).
Proof.
  intros Hwf Hr0 Hr1 Hc0 Hc1.
  rewrite get_move_find_move_spec by done. split; [done|].
  rewrite <-find_move_spec_None. split; [by intros [= ->]|by intros ->].
Qed.

Lemma get_move_rotated_scan_witness :
  wf_board 9 initial_board ∧
  get_move 9 initial_board (5, 7) = Ok (find_move_spec 9 initial_board (5, 7)).
Proof.
  split; [exact wf_board_initial_board|].
  apply (get_move_rotated_scan 9 initial_board (5, 7));
    [exact wf_board_initial_board|unfold size_t_bits; simpl; lia..].
Defined.

(** C1 fails as stated: with the row offset [SIZE_MAX] the sum
    [row + row_offset] wraps around for every [row > 0]; on a 9x9 board the
    scan then visits rows 6, 0, 1, ..., 7 and never row 8, so the legal jump
    (8,3) -> (8,5) is missed and no move is reported, whereas the rotated
    scan of the specification finds it. *)
Lemma get_move_wrapped_offset_misses_jump :
  wf_board 9 lone_pair ∧
  legal_jump 9 lone_pair (8, 3) (0, 1) ∧
  get_move 9 lone_pair (SIZE_MAX, 0) = Ok None ∧
  find_move_spec 9 lone_pair (SIZE_MAX, 0) = Some (mkMove (8, 3) (8, 5)).
Proof.
  split; [exact wf_board_lone_pair|].
  split; [by vm_compute|]. split; by vm_compute.
Qed.

(** C2: [get_move] is deterministic: boards that read alike at every
    coordinate, searched with equal offsets, give equal results.  A run of
    the simulation is determined by its seed and the generator algorithm:
    in whatever state the process-wide generator is found, two calls of
    [run_simulation] with one seed end in the same state (same move
    sequence, same final score, same text, same generator left behind);
    printing or not printing changes neither the moves nor the score; and
    every call returns. *)
Theorem simulation_reproducible {RandState : Type}
    (srand : Z → RandState) (rand : RandState → Z * RandState) :
  (∀ size board1 board2 offset1 offset2,
     (∀ row column,
        get_from_board size board1 row column =
        get_from_board size board2 row column) →
     offset1 = offset2 →
     get_move size board1 offset1 = get_move size board2 offset2) ∧
  (∀ seed print_run fuel1 fuel2 g1 g2 r1 r2,
     run_simulation_call srand rand fuel1 seed print_run g1 = Some r1 →
     run_simulation_call srand rand fuel2 seed print_run g2 = Some r2 →
     r1 = r2) ∧
  (∀ seed print_run1 print_run2 fuel1 fuel2 g1 g2 r1 r2,
     run_simulation_call srand rand fuel1 seed print_run1 g1 = Some (Ok r1) →
     run_simulation_call srand rand fuel2 seed print_run2 g2 = Some (Ok r2) →
     run_history r1 = run_history r2 ∧ run_score r1 = run_score r2 ∧
     run_board r1 = run_board r2 ∧ run_generator r1 = run_generator r2) ∧
  (∀ seed print_run g fuel,
     (80 ≤ fuel)%nat →
     ∃ r, run_simulation_call srand rand fuel seed print_run g = Some (Ok r)).
Proof.
  split_and!.
  - intros size board1 board2 offset1 offset2 Hread ->.
    by apply get_move_ext.
  - intros seed print_run fuel1 fuel2 g1 g2 r1 r2 H1 H2.
    apply (run_simulation_call_fuel _ _ _ (fuel1 `max` fuel2)%nat) in H1; [|lia].
    apply (run_simulation_call_fuel _ _ _ (fuel1 `max` fuel2)%nat) in H2; [|lia].
    rewrite (run_simulation_call_entry srand rand _ seed print_run g1 g2) in H1.
    congruence.
  - intros seed print_run1 print_run2 fuel1 fuel2 g1 g2 r1 r2 H1 H2.
    apply run_simulation_call_sim in H1, H2.
    apply (simulate_fuel _ _ _ (fuel1 `max` fuel2)%nat) in H1; [|lia].
    apply (simulate_fuel _ _ _ (fuel1 `max` fuel2)%nat) in H2; [|lia].
    rewrite H1 in H2. injection H2 as Hb Hg Hp Hh Hs. done.
  - intros seed print_run g fuel Hfuel.
    by apply run_simulation_call_total.
Qed.

Lemma simulation_reproducible_witness :
  ∃ r, run_simulation_call lcg_srand lcg_rand 80 42 true 0 = Some (Ok r) ∧
       run_simulation_call lcg_srand lcg_rand 100 42 true 777 = Some (Ok r) ∧
       run_score r = 18.
Proof.
  destruct (run_simulation_call lcg_srand lcg_rand 80 42 true 0)
    as [[r1|]|] eqn:H1; [|by vm_compute in H1..].
  destruct (run_simulation_call lcg_srand lcg_rand 100 42 true 777)
    as [[r2|]|] eqn:H2; [|by vm_compute in H2..].
  pose proof (proj1 (proj2 (simulation_reproducible lcg_srand lcg_rand))
                _ _ _ _ _ _ _ _ H1 H2) as [= Heq].
  exists r1. split; [done|]. split; [by rewrite Heq|].
  vm_compute in H1. by injection H1 as <-.
Defined.

(** C3 (as amended): for every odd [size] from 5 on (a [size_t]), the board
    [make_board] returns has exactly one [EMPTY] cell, the centre
    [(size/2, size/2)]; exactly 12 [UNUSABLE] cells; and exactly
    [size * size - 1 - 12] [OCCUPIED] cells. *)
Theorem make_board_cell_counts size :
  size mod 2 = 1 → 5 ≤ size < 2 ^ size_t_bits →
  ∃ board,
    make_board size = Ok board ∧
    count_cells EMPTY board = 1 ∧
    get_from_board size board (size / 2) (size / 2) = Some EMPTY ∧
    count_cells UNUSABLE board = 12 ∧
    count_cells OCCUPIED board = size * size - 1 - 12 ∧
    get_score board = size * size - 1 - 12.
Proof.
  intros Hodd Hsize.
  destruct (make_board size) as [board|] eqn:Hmake;
    [|by rewrite make_board_puts in Hmake by (done || lia)].
  exists board. split; [done|].
  pose proof (centre_bounds size Hodd ltac:(lia)) as Hcentre.
  change get_score with (count_cells OCCUPIED).
  rewrite !(make_board_count_cells size board _ Hodd Hsize Hmake).
  rewrite (make_board_cells size board _ _ Hodd ltac:(lia) Hmake) by lia.
  rewrite corner_centre by (done || lia).
  rewrite (bool_decide_eq_true_2 (_ ∧ _)) by done.
  rewrite !(bool_decide_eq_true_2 (EMPTY = EMPTY)) by done.
  rewrite !(bool_decide_eq_true_2 (OCCUPIED = OCCUPIED)) by done.
  rewrite !(bool_decide_eq_true_2 (UNUSABLE = UNUSABLE)) by done.
  rewrite !(bool_decide_eq_false_2 (OCCUPIED = EMPTY)) by done.
  rewrite !(bool_decide_eq_false_2 (UNUSABLE = EMPTY)) by done.
  rewrite !(bool_decide_eq_false_2 (OCCUPIED = UNUSABLE)) by done.
  rewrite !(bool_decide_eq_false_2 (EMPTY = UNUSABLE)) by done.
  rewrite !(bool_decide_eq_false_2 (UNUSABLE = OCCUPIED)) by done.
  rewrite !(bool_decide_eq_false_2 (EMPTY = OCCUPIED)) by done.
  cbn [Z.b2z]. split_and!; try done; lia.
Qed.

Lemma make_board_cell_counts_witness :
  ∃ board,
    make_board 9 = Ok board ∧
    count_cells EMPTY board = 1 ∧
    get_from_board 9 board (9 / 2) (9 / 2) = Some EMPTY ∧
    count_cells UNUSABLE board = 12 ∧
    count_cells OCCUPIED board = 9 * 9 - 1 - 12 ∧
    get_score board = 9 * 9 - 1 - 12.
Proof.
  apply (make_board_cell_counts 9); [reflexivity|unfold size_t_bits; lia].
Defined.

(** C3 fails as stated: 3 is odd, and [make_board<3>()] returns a board
    with 8 [UNUSABLE] cells (not 12) and no [OCCUPIED] cell (not
    [3 * 3 - 1 - 12]). *)
Lemma make_board_three_counts :
  3 mod 2 = 1 ∧
  make_board 3 = Ok board_of_three ∧
  count_cells UNUSABLE board_of_three = 8 ∧
  count_cells OCCUPIED board_of_three = 0 ∧
  count_cells UNUSABLE board_of_three ≠ 12 ∧
  count_cells OCCUPIED board_of_three ≠ 3 * 3 - 1 - 12.
Proof. split_and!; by vm_compute. Qed.

(** C4 (as amended): on the board [make_board] returns for an odd [size]
    from 3 on, the three cells at each corner (rows 0 and [size - 1] in
    columns 0, 1, [size - 2], [size - 1]; rows 1 and [size - 2] in columns 0
    and [size - 1]) are [UNUSABLE], the centre is [EMPTY], and every other
    cell is [OCCUPIED]. *)
Theorem make_board_shape size :
  size mod 2 = 1 → 3 ≤ size < 2 ^ size_t_bits →
  ∃ board,
    make_board size = Ok board ∧
    wf_board size board ∧
    ∀ row column,
      0 ≤ row < size → 0 ≤ column < size →
      get_from_board size board row column =
        Some (if corner size row column then UNUSABLE
              else if bool_decide (row = size / 2 ∧ column = size / 2)
                   then EMPTY
                   else OCCUPIED).
Proof.
  intros Hodd Hsize.
  destruct (make_board size) as [board|] eqn:Hmake;
    [|by rewrite make_board_puts in Hmake].
  exists board. split; [done|]. split; [by eapply make_board_wf|].
  intros row column Hr Hc. by apply make_board_cells.
Qed.

Lemma make_board_shape_witness :
  ∃ board,
    make_board 9 = Ok board ∧
    wf_board 9 board ∧
    ∀ row column,
      0 ≤ row < 9 → 0 ≤ column < 9 →
      get_from_board 9 board row column =
        Some (if corner 9 row column then UNUSABLE
              else if bool_decide (row = 9 / 2 ∧ column = 9 / 2)
                   then EMPTY
                   else OCCUPIED).
Proof.
  apply (make_board_shape 9); [reflexivity|unfold size_t_bits; lia].
Defined.

(** C4 fails as stated: the cell (1,1) lies in the 2x2 block of the
    top-left corner, and on the board [make_board<9>()] returns it is
    [OCCUPIED], not [UNUSABLE]. *)
Lemma make_board_inner_corner_occupied :
  make_board 9 = Ok initial_board ∧
  corner_block 9 1 1 = true ∧
  get_from_board 9 initial_board 1 1 = Some OCCUPIED ∧
  get_from_board 9 initial_board 1 1 ≠ Some UNUSABLE.
Proof. split_and!; by vm_compute. Qed.

(** C5: every move [get_move] returns is valid for the board it was found
    on: the origin is [OCCUPIED], the destination is [EMPTY], the two are
    exactly two cells apart along one axis, and the cell between them is
    [OCCUPIED]; [do_move] accepts it. *)
Theorem get_move_returns_valid_move size board offset move :
  get_move size board offset = Ok (Some move) →
  get_from_board size board (from move).1 (from move).2 = Some OCCUPIED ∧
  get_from_board size board (to move).1 (to move).2 = Some EMPTY ∧
  two_apart move ∧
  get_from_board size board (over move).1 (over move).2 = Some OCCUPIED ∧
  valid_move size board move ∧
  ∃ board', do_move board move = Ok board'.
Proof.
  intros Hvalid%get_move_valid_move.
  pose proof Hvalid as (Hfrom & Hto & Hapart & Hover).
  split_and!; try done. exists (moved board move). by eapply do_move_valid.
Qed.

Lemma get_move_returns_valid_move_witness :
  get_move 9 initial_board (0, 0) = Ok (Some (mkMove (2, 4) (4, 4))) ∧
  valid_move 9 initial_board (mkMove (2, 4) (4, 4)).
Proof.
  assert (get_move 9 initial_board (0, 0) = Ok (Some (mkMove (2, 4) (4, 4))))
    as Hmove by (vm_compute; reflexivity).
  split; [exact Hmove|].
  apply (get_move_returns_valid_move 9 initial_board (0, 0) _ Hmove).
Defined.

(** C6: for every board and every move that meets the preconditions of
    [do_move] (origin [OCCUPIED], destination [EMPTY], two apart on one
    axis, midpoint [OCCUPIED]), [do_move] returns normally, the origin and
    the midpoint are [EMPTY] afterwards, the destination is [OCCUPIED], and
    every other cell reads as before. *)
Theorem do_move_effect size board move :
  valid_move size board move →
  ∃ board',
    do_move board move = Ok board' ∧
    get_from_board size board' (from move).1 (from move).2 = Some EMPTY ∧
    get_from_board size board' (to move).1 (to move).2 = Some OCCUPIED ∧
    get_from_board size board' (over move).1 (over move).2 = Some EMPTY ∧
    (∀ row column,
       (row, column) ≠ from move → (row, column) ≠ to move →
       (row, column) ≠ over move →
       get_from_board size board' row column =
       get_from_board size board row column) ∧
    (wf_board size board → wf_board size board').
Proof.
  intros Hvalid. exists (moved board move).
  split; [by eapply do_move_valid|].
  pose proof Hvalid as (_ & _ & (Hof & Hot & Hft)%two_apart_over & _).
  split_and!; [| | | |apply wf_board_moved].
  - rewrite (get_from_board_moved _ _ _ _ _ Hvalid), <-surjective_pairing.
    rewrite bool_decide_eq_false_2 by done.
    rewrite bool_decide_eq_false_2 by done.
    by rewrite bool_decide_eq_true_2.
  - rewrite (get_from_board_moved _ _ _ _ _ Hvalid), <-surjective_pairing.
    rewrite bool_decide_eq_false_2 by done.
    by rewrite bool_decide_eq_true_2.
  - rewrite (get_from_board_moved _ _ _ _ _ Hvalid), <-surjective_pairing.
    by rewrite bool_decide_eq_true_2.
  - intros row column H1 H2 H3.
    rewrite (get_from_board_moved _ _ _ _ _ Hvalid).
    by rewrite !bool_decide_eq_false_2.
Qed.

Lemma do_move_effect_witness :
  valid_move 9 initial_board (mkMove (2, 4) (4, 4)) ∧
  ∃ board',
    do_move initial_board (mkMove (2, 4) (4, 4)) = Ok board' ∧
    get_from_board 9 board' 2 4 = Some EMPTY ∧
    get_from_board 9 board' 4 4 = Some OCCUPIED ∧
    get_from_board 9 board' 3 4 = Some EMPTY.
Proof.
  assert (valid_move 9 initial_board (mkMove (2, 4) (4, 4))) as Hvalid.
  { unfold valid_move, two_apart. split_and!; [by vm_compute..| |by vm_compute].
    right. split; [reflexivity|by vm_compute]. }
  split; [exact Hvalid|].
  destruct (do_move_effect 9 initial_board _ Hvalid)
    as (board' & Hmove & Hfrom & Hto & Hover & _ & _).
  exists board'. by split_and!.
Defined.

(** C7, the code at the failing input: the destination (4,3) of
    [crowded_move] is [OCCUPIED] on the initial board, and [do_move] does
    not abort; it returns a board on which the origin and the midpoint have
    been emptied. *)
Lemma do_move_occupied_destination :
  get_from_board 9 initial_board 4 1 = Some OCCUPIED ∧
  get_from_board 9 initial_board 4 2 = Some OCCUPIED ∧
  get_from_board 9 initial_board 4 3 = Some OCCUPIED ∧
  ¬ valid_move 9 initial_board crowded_move ∧
  ∃ board',
    do_move initial_board crowded_move = Ok board' ∧
    board' ≠ initial_board ∧
    get_from_board 9 board' 4 1 = Some EMPTY ∧
    get_from_board 9 board' 4 2 = Some EMPTY ∧
    get_from_board 9 board' 4 3 = Some OCCUPIED ∧
    get_score board' = get_score initial_board - 2.
Proof.
  split_and!; try by vm_compute.
  - intros (_ & Hto & _). by vm_compute in Hto.
  - eexists. split; [vm_compute; reflexivity|]. split_and!; by vm_compute.
Qed.

(** C8: applying a valid move lowers the number of [OCCUPIED] cells by
    exactly one; hence the score the driver keeps, started at
    [board_size * board_size - 13] and decremented once per applied move,
    equals [get_score] of the board at loop entry, after every pass of the
    loop and when the loop is left. *)
Theorem score_tracking {RandState : Type}
    (srand : Z → RandState) (rand : RandState → Z * RandState) :
  (∀ size board move,
     valid_move size board move →
     ∃ board', do_move board move = Ok board' ∧
               get_score board' = get_score board - 1) ∧
  (∀ seed s,
     simulation_start srand rand seed = Ok s →
     score s = board_size * board_size - 13 ∧ score s = get_score (board s)) ∧
  (∀ seed s move s',
     reached srand rand seed s → possible_move s = Some move →
     simulation_step rand s move = Ok s' →
     score s' = score s - 1 ∧ score s' = get_score (board s')) ∧
  (∀ seed s, reached srand rand seed s → score s = get_score (board s)) ∧
  (∀ seed fuel s,
     simulate srand rand fuel seed = Some (Ok s) →
     possible_move s = None ∧ score s = get_score (board s)).
Proof.
  split_and!.
  - intros size board move Hvalid. exists (moved board move).
    split; [by eapply do_move_valid|by eapply get_score_moved].
  - intros seed s Hstart.
    destruct (simulation_start_inv srand rand seed)
      as (s0 & Hs0 & (_ & Hscore & _ & Hlen) & Hmake).
    assert (s0 = s) as -> by congruence. split; [|done].
    revert Hstart. unfold simulation_start.
    destruct (make_board board_size); [|done]. rewrite bind_Ok.
    destruct (draw_offset _ _). destruct (get_move _ _ _); [|done].
    by intros [= <-].
  - intros seed s move s' Hinv%reached_inv Hpossible Hstep.
    destruct (simulation_step_inv rand s move Hinv Hpossible)
      as (_ & s1 & Hs1 & (_ & Hscore & _) & _ & _ & Hdec).
    assert (s1 = s') as -> by congruence. done.
  - intros seed s (_ & Hscore & _)%reached_inv. done.
  - intros seed fuel s [Hreached Hnone]%simulate_reached.
    apply reached_inv in Hreached as (_ & Hscore & _). done.
Qed.

Lemma score_tracking_witness :
  ∃ s, simulate lcg_srand lcg_rand 100 42 = Some (Ok s) ∧
       score s = get_score (board s).
Proof.
  destruct (simulate lcg_srand lcg_rand 100 42) as [[s|]|] eqn:Hrun;
    [|by vm_compute in Hrun..].
  exists s. split; [done|].
  destruct (score_tracking lcg_srand lcg_rand) as (_ & _ & _ & _ & Hhalt).
  apply (Hhalt 42 100%nat s Hrun).
Defined.

(** C9: every run of the simulation halts: with room for
    [board_size * board_size - 1] passes of the loop the run finishes, the
    last call of the move finder having reported that no move is available,
    and at most [board_size * board_size - 1] moves have been applied. *)
Theorem simulation_halts {RandState : Type}
    (srand : Z → RandState) (rand : RandState → Z * RandState) seed fuel :
  (Z.to_nat (board_size * board_size - 1) ≤ fuel)%nat →
  ∃ s,
    simulate srand rand fuel seed = Some (Ok s) ∧
    run_simulation srand rand fuel seed = Some (Ok (score s)) ∧
    possible_move s = None ∧
    (∃ offset, get_move board_size (board s) offset = Ok None) ∧
    Z.of_nat (length (move_history s)) ≤ board_size * board_size - 1.
Proof.
  intros Hfuel.
  destruct (simulate_total srand rand seed fuel)
    as (s & Hrun & (_ & _ & [offset Hmove] & Hlen) & Hnone).
  { unfold board_size in *. lia. }
  exists s. split_and!; try done.
  - unfold run_simulation. by rewrite Hrun.
  - exists offset. by rewrite <-Hnone.
  - pose proof (count_cells_nonneg OCCUPIED (board s)).
    rewrite <-get_score_count_cells in *. lia.
Qed.

Lemma simulation_halts_witness :
  ∃ s, simulate lcg_srand lcg_rand 80 42 = Some (Ok s) ∧
       Z.of_nat (length (move_history s)) ≤ 80.
Proof.
  destruct (simulation_halts lcg_srand lcg_rand 42 80)
    as (s & Hrun & _ & _ & _ & Hlen); [vm_compute; lia|].
  exists s. split; [exact Hrun|exact Hlen].
Defined.

(** C10: the [UNUSABLE] cells never change during a run.  On every board
    reachable from the board [make_board] returns by moves the finder
    produced, the cells that are [UNUSABLE] are those of the fresh board;
    a move the finder returns there has no [UNUSABLE] origin, midpoint or
    destination, and [do_move] with it leaves the [UNUSABLE] cells as they
    are.  The boards of the driver are such reachable boards. *)
Theorem unusable_cells_invariant {RandState : Type}
    (srand : Z → RandState) (rand : RandState → Z * RandState) :
  (∀ size board0 board,
     make_board size = Ok board0 → reachable size board0 board →
     (∀ row column,
        get_from_board size board row column = Some UNUSABLE ↔
        get_from_board size board0 row column = Some UNUSABLE) ∧
     (∀ offset move,
        get_move size board offset = Ok (Some move) →
        get_from_board size board (from move).1 (from move).2 ≠ Some UNUSABLE ∧
        get_from_board size board (over move).1 (over move).2 ≠ Some UNUSABLE ∧
        get_from_board size board (to move).1 (to move).2 ≠ Some UNUSABLE ∧
        ∃ board',
          do_move board move = Ok board' ∧
          ∀ row column,
            get_from_board size board' row column = Some UNUSABLE ↔
            get_from_board size board row column = Some UNUSABLE)) ∧
  (∀ seed s,
     reached srand rand seed s →
     ∃ board0, make_board board_size = Ok board0 ∧
               reachable board_size board0 (board s)).
Proof.
  assert (∀ size board move row column,
            valid_move size board move →
            get_from_board size (moved board move) row column = Some UNUSABLE ↔
            get_from_board size board row column = Some UNUSABLE) as Hkeep.
  { intros size board move row column Hvalid.
    rewrite (get_from_board_moved _ _ _ _ _ Hvalid).
    destruct Hvalid as (Hfrom & Hto & _ & Hover).
    repeat case_bool_decide; try done.
    - destruct (over move); simplify_eq. cbn [fst snd] in Hover.
      rewrite Hover. done.
    - destruct (to move); simplify_eq. cbn [fst snd] in Hto.
      rewrite Hto. done.
    - destruct (from move); simplify_eq. cbn [fst snd] in Hfrom.
      rewrite Hfrom. done. }
  split.
  - intros size board0 board _ Hreachable. split.
    + induction Hreachable as [|board offset move board' _ IH Hmove Hdo];
        [done|].
      apply get_move_valid_move in Hmove.
      rewrite (do_move_valid _ _ _ Hmove) in Hdo. apply Ok_inj in Hdo as <-.
      intros row column. by rewrite Hkeep.
    + intros offset move Hvalid%get_move_valid_move.
      pose proof Hvalid as (Hfrom & Hto & _ & Hover).
      rewrite Hfrom, Hto, Hover. split_and!; try done.
      exists (moved board move). split; [by eapply do_move_valid|].
      intros row column. by apply Hkeep.
  - intros seed s Hreached.
    induction Hreached as [s Hstart|s move s' Hreached IH Hpossible Hstep].
    + destruct (simulation_start_inv srand rand seed) as (s0 & Hs0 & _ & Hmake).
      assert (s0 = s) as -> by congruence.
      exists (board s). split; [done|apply reachable_refl].
    + destruct IH as (board0 & Hmake & Hreachable).
      exists board0. split; [done|].
      pose proof (reached_inv _ _ _ _ Hreached) as Hinv.
      destruct (simulation_step_inv rand s move Hinv Hpossible)
        as (Hvalid & s1 & Hs1 & _ & Hboard & _).
      assert (s1 = s') as -> by congruence.
      destruct Hinv as (_ & _ & [offset Hmove] & _).
      rewrite Hpossible in Hmove.
      eapply reachable_step; [done|done|].
      rewrite Hboard. by eapply do_move_valid.
Qed.

Lemma unusable_cells_invariant_witness :
  make_board 9 = Ok initial_board ∧
  ∃ board',
    do_move initial_board (mkMove (2, 4) (4, 4)) = Ok board' ∧
    reachable 9 initial_board board' ∧
    (get_from_board 9 board' 0 0 = Some UNUSABLE ↔
     get_from_board 9 initial_board 0 0 = Some UNUSABLE).
Proof.
  split; [exact make_board_initial_board|].
  destruct (do_move initial_board (mkMove (2, 4) (4, 4))) as [board'|] eqn:Hdo;
    [|by vm_compute in Hdo].
  assert (reachable 9 initial_board board') as Hreachable.
  { eapply (reachable_step 9 initial_board initial_board (0, 0));
      [apply reachable_refl| |exact Hdo].
    vm_compute. reflexivity. }
  exists board'. split; [reflexivity|]. split; [exact Hreachable|].
  apply (proj1 (unusable_cells_invariant lcg_srand lcg_rand)
           9 initial_board board' make_board_initial_board Hreachable).
Defined.

(** * Further properties of the engine *)

(** ** The bounds-checked lookup *)

(** On a well-formed board [get_from_board] is absent exactly for the
    coordinates off the board: a negative index or one from [size] on. *)
Theorem get_from_board_None size board row column :
  wf_board size board →
  (get_from_board size board row column = None ↔
   row < 0 ∨ column < 0 ∨ size ≤ row ∨ size ≤ column).
Proof.
  intros Hwf. split.
  - intros Hnone.
    destruct (decide (0 ≤ row < size ∧ 0 ≤ column < size)) as [[Hr Hc]|]; [|lia].
    destruct (get_from_board_wf size board row column Hwf Hr Hc) as [x Hx].
    congruence.
  - intros Hout. unfold get_from_board. rewrite bool_decide_eq_true_2; [done|lia].
Qed.

Lemma get_from_board_None_witness :
  wf_board 9 initial_board ∧
  get_from_board 9 initial_board 9 4 = None ∧
  get_from_board 9 initial_board 4 (-1) = None.
Proof.
  split; [exact wf_board_initial_board|].
  split; apply (get_from_board_None 9 initial_board _ _ wf_board_initial_board);
    lia.
Defined.

(** ** Indexing in place against the lookup *)

Lemma at_get_from_board size board row column :
  wf_board size board →
  at_ board row column =
    match get_from_board size board row column with
    | Some cell => Ok cell
    | None => Abort OutOfRange
    end.
Proof.
  intros [Hlen Hrows]. unfold at_, get_from_board.
  case_bool_decide as Hneg; case_bool_decide as Hout; try lia.
  - destruct (board !! Z.to_nat row) as [r|] eqn:Hl; [|done].
    rewrite Forall_lookup in Hrows. specialize (Hrows _ _ Hl). simpl in Hrows.
    apply lookup_lt_Some in Hl.
    destruct (r !! Z.to_nat column) as [cell|] eqn:Hc; [|done].
    apply lookup_lt_Some in Hc. lia.
  - destruct (board !! Z.to_nat row) as [r|] eqn:Hl; [|done]. simpl.
    by destruct (r !! Z.to_nat column).
  - done.
Qed.

(** ** Counting *)

Lemma count_if_three (row : list FieldState) :
  count_if (λ cell, bool_decide (cell = UNUSABLE)) row
  + count_if (λ cell, bool_decide (cell = EMPTY)) row
  + count_if (λ cell, bool_decide (cell = OCCUPIED)) row
  = Z.of_nat (length row).
Proof.
  induction row as [|cell row IH]; [done|].
  rewrite !count_if_cons, length_cons. destruct cell; simpl Z.b2z; lia.
Qed.

Lemma count_cells_three size board :
  wf_board size board →
  count_cells UNUSABLE board + count_cells EMPTY board
  + count_cells OCCUPIED board = size * size.
Proof.
  intros [Hlen Hrows]. rewrite <-Hlen at 1. clear Hlen. unfold count_cells.
  induction Hrows as [|row board Hrow _ IH]; [done|].
  rewrite !fmap_cons, !accumulate_cons, length_cons.
  pose proof (count_if_three row). lia.
Qed.

(** The score of a well-formed board whose number of cells fits an [int]
    lies between 0 and [size * size], and the three states together account
    for every cell. *)
Theorem get_score_bounds size board :
  wf_board size board → size * size ≤ INT_MAX →
  0 ≤ get_score board ≤ size * size ∧
  count_cells UNUSABLE board + count_cells EMPTY board + get_score board
    = size * size.
Proof.
  intros Hwf _. pose proof (count_cells_three size board Hwf) as Hsum.
  pose proof (count_cells_nonneg UNUSABLE board).
  pose proof (count_cells_nonneg EMPTY board).
  pose proof (count_cells_nonneg OCCUPIED board).
  change get_score with (count_cells OCCUPIED). lia.
Qed.

Lemma get_score_bounds_witness :
  wf_board 9 lone_pair ∧ 9 * 9 ≤ INT_MAX ∧ 0 ≤ get_score lone_pair ≤ 9 * 9.
Proof.
  assert (9 * 9 ≤ INT_MAX) as Hint by (unfold INT_MAX; lia).
  split; [exact wf_board_lone_pair|]. split; [exact Hint|].
  apply (get_score_bounds 9 lone_pair wf_board_lone_pair Hint).
Defined.

Lemma count_cells_positive size board row column s :
  get_from_board size board row column = Some s → 1 ≤ count_cells s board.
Proof.
  intros Hget.
  set (other := if bool_decide (s = EMPTY) then OCCUPIED else EMPTY).
  pose proof (count_cells_put size board row column other s s Hget) as Hput.
  pose proof (count_cells_nonneg s (put board row column other)).
  rewrite (bool_decide_eq_true_2 (s = s)) in Hput by done.
  rewrite (bool_decide_eq_false_2 (other = s)) in Hput
    by (subst other; by destruct s).
  simpl Z.b2z in Hput. lia.
Qed.

Lemma two_pegs size board row column row' column' :
  get_from_board size board row column = Some OCCUPIED →
  get_from_board size board row' column' = Some OCCUPIED →
  (row', column') ≠ (row, column) →
  2 ≤ get_score board.
Proof.
  intros H1 H2 Hne. change get_score with (count_cells OCCUPIED).
  pose proof (count_cells_put size board row column EMPTY OCCUPIED OCCUPIED H1)
    as Hput.
  rewrite (bool_decide_eq_true_2 (OCCUPIED = OCCUPIED)) in Hput by done.
  rewrite (bool_decide_eq_false_2 (EMPTY = OCCUPIED)) in Hput by done.
  simpl Z.b2z in Hput.
  assert (get_from_board size (put board row column EMPTY) row' column'
          = Some OCCUPIED) as H2'.
  { rewrite (get_from_board_put size _ _ _ _ OCCUPIED) by done.
    rewrite bool_decide_eq_false_2; [done|]. intros [-> ->]. done. }
  pose proof (count_cells_positive _ _ _ _ _ H2'). lia.
Qed.

(** ** No move without two pegs *)

(** On a well-formed board with at most one peg the finder reports that no
    move is available, whatever the offset: a returned move needs an
    occupied origin and an occupied midpoint. *)
Theorem get_move_needs_two_pegs size board offset :
  wf_board size board → get_score board ≤ 1 →
  get_move size board offset = Ok None.
Proof.
  intros Hwf Hscore.
  destruct (get_move size board offset) as [[move|]|why] eqn:Hmove.
  - apply get_move_valid_move in Hmove as (Hfrom & _ & Hapart & Hover).
    destruct (two_apart_over move Hapart) as (Hof & _).
    pose proof (two_pegs size board _ _ _ _ Hfrom Hover) as Htwo.
    rewrite <-!surjective_pairing in Htwo. specialize (Htwo Hof). lia.
  - done.
  - by rewrite get_move_scan in Hmove.
Qed.

Lemma get_move_needs_two_pegs_witness :
  wf_board 3 board_of_three ∧ get_move 3 board_of_three (1, 2) = Ok None.
Proof.
  assert (wf_board 3 board_of_three) as Hwf
    by (split; [reflexivity|unfold board_of_three; repeat constructor]).
  split; [exact Hwf|].
  apply (get_move_needs_two_pegs 3 board_of_three (1, 2) Hwf).
  vm_compute. discriminate.
Defined.

(** ** What do_move accepts *)

Lemma midpoint_eq_r a b : midpoint a b = b ↔ a = b.
Proof.
  unfold midpoint. case_bool_decide; split; intros; Z.div_mod_to_equations; lia.
Qed.

Lemma over_eq_to move : over move = to move ↔ from move = to move.
Proof.
  destruct move as [[fr fc] [tr tc]]. unfold over. cbn [from to fst snd].
  rewrite !pair_equal_spec, !midpoint_eq_r. done.
Qed.

Lemma midpoint_between a b lo hi :
  lo ≤ a < hi → lo ≤ b < hi → lo ≤ midpoint a b < hi.
Proof.
  intros Ha Hb. unfold midpoint.
  case_bool_decide; Z.div_mod_to_equations; lia.
Qed.

(** What [do_move] does on a well-formed board, assertion by assertion. *)
Lemma do_move_cases size board move :
  wf_board size board →
  do_move board move =
    match get_from_board size board (from move).1 (from move).2 with
    | None => Abort OutOfRange
    | Some from_cell =>
        if bool_decide (from_cell = OCCUPIED) then
          match get_from_board size board (to move).1 (to move).2 with
          | None => Abort OutOfRange
          | Some _ =>
              if bool_decide (over move = to move ∨
                              (over move ≠ from move ∧
                               get_from_board size board
                                 (over move).1 (over move).2 = Some OCCUPIED))
              then Ok (moved board move)
              else Abort AssertionFailed
          end
        else Abort AssertionFailed
    end.
Proof.
  intros Hwf. destruct move as [[fr fc] [tr tc]].
  unfold do_move, moved, over. cbn [from to fst snd].
  set (mr := midpoint fr tr). set (mc := midpoint fc tc).
  rewrite (at_get_from_board size board fr fc Hwf).
  destruct (get_from_board size board fr fc) as [from_cell|] eqn:Hfrom; [|done].
  rewrite bind_Ok. case_bool_decide as Hocc; [|done]. subst from_cell.
  cbn [assert]. rewrite bind_Ok.
  pose proof (wf_board_put size board fr fc EMPTY Hwf) as Hwf1.
  assert (∀ r c, get_from_board size (put board fr fc EMPTY) r c =
            if bool_decide (r = fr ∧ c = fc) then Some EMPTY
            else get_from_board size board r c) as H1.
  { intros r c. by erewrite get_from_board_put. }
  rewrite (at_get_from_board size _ tr tc Hwf1).
  destruct (get_from_board size board tr tc) as [to_cell|] eqn:Hto.
  2:{ rewrite H1, Hto. rewrite bool_decide_eq_false_2; [done|].
      intros [-> ->]. congruence. }
  assert (∃ to_cell', get_from_board size (put board fr fc EMPTY) tr tc
                      = Some to_cell') as [to_cell' Hto'].
  { rewrite H1, Hto. case_bool_decide; eauto. }
  rewrite Hto', bind_Ok.
  rewrite (at_get_from_board size _ fr fc Hwf1), H1.
  rewrite (bool_decide_eq_true_2 (fr = fr ∧ fc = fc)) by done.
  rewrite bind_Ok, (bool_decide_eq_true_2 (EMPTY = EMPTY)) by done.
  cbn [assert]. rewrite bind_Ok.
  pose proof (wf_board_put size _ tr tc OCCUPIED Hwf1) as Hwf2.
  rewrite (at_get_from_board size _ mr mc Hwf2).
  rewrite (get_from_board_put size _ _ _ _ to_cell') by done. rewrite H1.
  apply get_from_board_Some in Hfrom as (Hfr & Hfc & _).
  apply get_from_board_Some in Hto as (Htr & Htc & _).
  pose proof (midpoint_between fr tr 0 size Hfr Htr) as Hmr.
  pose proof (midpoint_between fc tc 0 size Hfc Htc) as Hmc.
  fold mr in Hmr. fold mc in Hmc.
  destruct (get_from_board_wf size board mr mc Hwf Hmr Hmc) as [over_cell Hover].
  rewrite Hover. clearbody mr mc.
  destruct (decide (mr = tr ∧ mc = tc)) as [[-> ->]|Hmt].
  { rewrite (bool_decide_eq_true_2 (tr = tr ∧ tc = tc)) by done.
    by rewrite (bool_decide_eq_true_2 (_ ∨ _)) by (by left). }
  rewrite (bool_decide_eq_false_2 (mr = tr ∧ mc = tc)) by done.
  destruct (decide (mr = fr ∧ mc = fc)) as [[-> ->]|Hmf].
  { rewrite (bool_decide_eq_true_2 (fr = fr ∧ fc = fc)) by done.
    rewrite (bool_decide_eq_false_2 (_ ∨ _)); [done|].
    intros [[= ? ?]|[? _]]; tauto. }
  rewrite (bool_decide_eq_false_2 (mr = fr ∧ mc = fc)) by done.
  rewrite bind_Ok. destruct (decide (over_cell = OCCUPIED)) as [->|Hno].
  - rewrite (bool_decide_eq_true_2 (OCCUPIED = OCCUPIED)) by done.
    rewrite (bool_decide_eq_true_2 (_ ∨ _)); [done|].
    right. split; [|done]. intros [= ? ?]. tauto.
  - rewrite (bool_decide_eq_false_2 (over_cell = OCCUPIED)) by done.
    rewrite (bool_decide_eq_false_2 (_ ∨ _)); [done|].
    intros [[= ? ?]|[_ [= ?]]]; tauto.
Qed.

(** [do_move] returns normally on a well-formed board exactly when the
    origin is occupied, the destination is on the board, and either origin
    and destination coincide or the midpoint is another, occupied cell.
    The state of the destination plays no part. *)
Theorem do_move_accepts size board move :
  wf_board size board →
  ((∃ board', do_move board move = Ok board') ↔
   get_from_board size board (from move).1 (from move).2 = Some OCCUPIED ∧
   is_Some (get_from_board size board (to move).1 (to move).2) ∧
   (from move = to move ∨
    (over move ≠ from move ∧
     get_from_board size board (over move).1 (over move).2 = Some OCCUPIED))).
Proof.
  intros Hwf. rewrite (do_move_cases size board move Hwf).
  rewrite <-over_eq_to.
  destruct (get_from_board size board (from move).1 (from move).2)
    as [from_cell|]; [|split; [by intros [? ?]|by intros [? _]]].
  case_bool_decide as Hocc.
  2:{ split; [by intros [? ?]|]. intros [[= ->] _]. done. }
  subst from_cell.
  destruct (get_from_board size board (to move).1 (to move).2) as [to_cell|].
  2:{ split; [by intros [? ?]|]. by intros (_ & [? ?] & _). }
  case_bool_decide as Hmid.
  - split; [|eauto]. intros _. split_and!; eauto.
  - split; [by intros [? ?]|]. intros (_ & _ & Hmid'). done.
Qed.

Lemma do_move_accepts_witness :
  wf_board 9 initial_board ∧
  ∃ board', do_move initial_board (mkMove (2, 4) (2, 4)) = Ok board'.
Proof.
  split; [exact wf_board_initial_board|].
  apply (do_move_accepts 9 initial_board (mkMove (2, 4) (2, 4))
           wf_board_initial_board).
  split_and!; [by vm_compute|by eexists|by left].
Defined.

(** On a well-formed board [do_move] stops on an assertion when the origin
    is on the board but not occupied, and when origin and destination are
    distinct cells of the board and the midpoint is the origin itself or is
    not occupied; it leaves the board's range when the origin or the
    destination is off the board. *)
Theorem do_move_rejects size board move :
  wf_board size board →
  (get_from_board size board (from move).1 (from move).2 = None →
   do_move board move = Abort OutOfRange) ∧
  (∀ from_cell,
     get_from_board size board (from move).1 (from move).2 = Some from_cell →
     from_cell ≠ OCCUPIED →
     do_move board move = Abort AssertionFailed) ∧
  (get_from_board size board (from move).1 (from move).2 = Some OCCUPIED →
   get_from_board size board (to move).1 (to move).2 = None →
   do_move board move = Abort OutOfRange) ∧
  (get_from_board size board (from move).1 (from move).2 = Some OCCUPIED →
   is_Some (get_from_board size board (to move).1 (to move).2) →
   from move ≠ to move →
   over move = from move ∨
   get_from_board size board (over move).1 (over move).2 ≠ Some OCCUPIED →
   do_move board move = Abort AssertionFailed).
Proof.
  intros Hwf. rewrite (do_move_cases size board move Hwf). split_and!.
  - by intros ->.
  - intros from_cell -> Hne. by rewrite bool_decide_eq_false_2.
  - intros -> ->. by rewrite bool_decide_eq_true_2.
  - intros -> [to_cell ->] Hne Hmid.
    rewrite (bool_decide_eq_true_2 (OCCUPIED = OCCUPIED)) by done.
    rewrite bool_decide_eq_false_2; [done|].
    rewrite over_eq_to. intros [?|[? ?]]; [done|]. by destruct Hmid.
Qed.

Lemma do_move_rejects_witness :
  wf_board 9 initial_board ∧
  do_move initial_board (mkMove (4, 4) (4, 6)) = Abort AssertionFailed.
Proof.
  split; [exact wf_board_initial_board|].
  apply (proj1 (proj2 (do_move_rejects 9 initial_board (mkMove (4, 4) (4, 6))
                         wf_board_initial_board)) EMPTY);
    [by vm_compute|discriminate].
Defined.

(** ** Offsets that give the same scan *)

(** As long as neither wraps around, two offsets whose components agree
    modulo [size] make [get_move] return the same result: the scan has at
    most [size * size] different orders. *)
Theorem get_move_offset_mod size board offset offset' :
  wf_board size board →
  0 ≤ offset.1 → offset.1 + size ≤ 2 ^ size_t_bits →
  0 ≤ offset.2 → offset.2 + size ≤ 2 ^ size_t_bits →
  0 ≤ offset'.1 → offset'.1 + size ≤ 2 ^ size_t_bits →
  0 ≤ offset'.2 → offset'.2 + size ≤ 2 ^ size_t_bits →
  offset.1 mod size = offset'.1 mod size →
  offset.2 mod size = offset'.2 mod size →
  get_move size board offset = get_move size board offset'.
Proof.
  intros Hwf ? ? ? ? ? ? ? ? Hrow Hcolumn.
  rewrite !get_move_find_move_spec by done. f_equal.
  rewrite !find_move_spec_alt. f_equal. f_equal.
  unfold rotated_scan. apply list_bind_ext; [|done]. intros row.
  apply list_bind_ext; [|done]. intros column. unfold rotated.
  rewrite (Zplus_mod row offset.1), (Zplus_mod column offset.2).
  rewrite Hrow, Hcolumn.
  by rewrite <-(Zplus_mod row offset'.1), <-(Zplus_mod column offset'.2).
Qed.

Lemma get_move_offset_mod_witness :
  get_move 9 initial_board (1, 2) = get_move 9 initial_board (10, 20).
Proof.
  apply (get_move_offset_mod 9 initial_board (1, 2) (10, 20));
    [exact wf_board_initial_board|unfold size_t_bits; simpl; lia..| |];
    reflexivity.
Defined.

(** ** The range of the final score *)

(** Whatever the wrap-around does to the scan, the loop counters reach
    every index from 0 to 6 of a board of size 9. *)
Lemma offsetted_board_size_hits offset target :
  0 ≤ target ≤ 6 →
  ∃ i, 0 ≤ i < board_size ∧ offsetted board_size offset i = target.
Proof.
  intros Htarget. unfold offsetted, wrap, board_size, size_t_bits.
  set (w := offset mod 2 ^ 64).
  assert (0 ≤ w < 2 ^ 64) as Hw by (apply Z.mod_pos_bound; lia).
  assert (∀ i, (i + offset) mod 2 ^ 64 = (i + w) mod 2 ^ 64) as Hmod
    by (intros i; unfold w; by rewrite Zplus_mod_idemp_r).
  destruct (decide (w + 9 ≤ 2 ^ 64)) as [Hfit|Hwrap].
  - exists ((target - w) mod 9). split; [apply Z.mod_pos_bound; lia|].
    rewrite Hmod. pose proof (Z.mod_pos_bound (target - w) 9 ltac:(lia)).
    rewrite (Z.mod_small (_ + w)) by lia.
    rewrite Zplus_mod_idemp_l. replace (target - w + w) with target by lia.
    apply Z.mod_small. lia.
  - destruct (decide (target + (2 ^ 64 - w) ≤ 8)) as [Hafter|Hbefore].
    + exists (2 ^ 64 - w + target). split; [lia|]. rewrite Hmod.
      replace (2 ^ 64 - w + target + w) with (target + 1 * 2 ^ 64) by lia.
      rewrite Z.mod_add by lia. rewrite (Z.mod_small target) by lia.
      apply Z.mod_small. lia.
    + exists (target - 7 + (2 ^ 64 - w)). split; [lia|]. rewrite Hmod.
      replace (target - 7 + (2 ^ 64 - w) + w) with (target + (2 ^ 64 - 7))
        by lia.
      rewrite (Z.mod_small (target + _)) by lia.
      replace (2 ^ 64 - 7) with (2049638230412172401 * 9) by reflexivity.
      rewrite Z.mod_add by lia. apply Z.mod_small. lia.
Qed.

(** On the initial board the finder finds a move with every offset. *)
Lemma get_move_initial_board offset :
  ∃ move, get_move board_size initial_board offset = Ok (Some move).
Proof.
  destruct (get_move board_size initial_board offset) as [[move|]|why]
    eqn:Hhead; [eauto| |];
    rewrite (get_move_scan _ _ _ wf_board_initial_board) in Hhead; [|done].
  exfalso. apply Ok_inj in Hhead. rewrite head_omap_None in Hhead.
  destruct (offsetted_board_size_hits offset.1 2) as (row & Hrow & Hr); [lia|].
  destruct (offsetted_board_size_hits offset.2 4) as (column & Hcolumn & Hc);
    [lia|].
  unfold board_size in *.
  specialize (Hhead row). rewrite elem_of_seqZ in Hhead.
  specialize (Hhead ltac:(lia)). rewrite head_omap_None in Hhead.
  specialize (Hhead column). rewrite elem_of_seqZ in Hhead.
  specialize (Hhead ltac:(lia)). rewrite Hr, Hc in Hhead.
  by vm_compute in Hhead.
Qed.

Lemma simulate_score_range {RandState : Type}
    (srand : Z → RandState) (rand : RandState → Z * RandState) seed fuel :
  (Z.to_nat (board_size * board_size - 1) ≤ fuel)%nat →
  ∃ s,
    simulate srand rand fuel seed = Some (Ok s) ∧
    run_simulation srand rand fuel seed = Some (Ok (score s)) ∧
    1 ≤ score s ≤ 67 ∧
    Z.of_nat (length (move_history s)) = 68 - score s.
Proof.
  intros Hfuel.
  destruct (simulate_total srand rand seed fuel)
    as (s & Hrun & (Hwf & Hscore & [offset Hmove] & Hlen) & Hnone).
  { unfold board_size in *. lia. }
  exists s. split; [done|].
  split; [unfold run_simulation; by rewrite Hrun|].
  unfold board_size in Hlen. split; [|lia].
  destruct (simulate_reached srand rand seed fuel s Hrun) as [Hreached _].
  destruct Hreached as [s Hstart|s0 move s Hreached Hpossible Hstep].
  - destruct (simulation_start_inv srand rand seed)
      as (s0 & Hs0 & (_ & _ & [offset0 Hmove0] & _) & Hmake).
    assert (s0 = s) as -> by congruence.
    change board_size with 9 in Hmake.
    rewrite make_board_initial_board in Hmake. apply Ok_inj in Hmake.
    rewrite <-Hmake in Hmove0.
    destruct (get_move_initial_board offset0) as [move Hfound]. congruence.
  - pose proof (reached_inv _ _ _ _ Hreached) as Hinv.
    destruct (simulation_step_inv rand s0 move Hinv Hpossible)
      as (Hvalid & s1 & Hs1 & _ & Hboard & Hhistory & _).
    assert (s1 = s) as -> by congruence.
    pose proof (get_from_board_moved board_size (board s0) move
                  (to move).1 (to move).2 Hvalid) as Hto.
    pose proof Hvalid as (_ & _ & (_ & Hot & _)%two_apart_over & _).
    rewrite <-surjective_pairing in Hto.
    rewrite bool_decide_eq_false_2 in Hto by done.
    rewrite bool_decide_eq_true_2 in Hto by done.
    rewrite <-Hboard in Hto. apply count_cells_positive in Hto.
    change (count_cells OCCUPIED) with get_score in Hto.
    rewrite Hhistory, length_app in Hlen. simpl length in Hlen. lia.
Qed.

(** Every run applies at least one move and leaves at least one peg: the
    score [run_simulation] returns lies between 1 and 67, and the number of
    recorded moves is 68 minus that score. *)
Theorem run_simulation_score_range {RandState : Type}
    (srand : Z → RandState) (rand : RandState → Z * RandState) seed fuel :
  (Z.to_nat (board_size * board_size - 1) ≤ fuel)%nat →
  ∃ s,
    simulate srand rand fuel seed = Some (Ok s) ∧
    run_simulation srand rand fuel seed = Some (Ok (score s)) ∧
    1 ≤ score s ≤ 67 ∧
    Z.of_nat (length (move_history s)) = 68 - score s.
Proof. apply simulate_score_range. Qed.

Lemma run_simulation_score_range_witness :
  ∃ s, simulate lcg_srand lcg_rand 80 42 = Some (Ok s) ∧ 1 ≤ score s ≤ 67.
Proof.
  destruct (run_simulation_score_range lcg_srand lcg_rand 42 80)
    as (s & Hrun & _ & Hrange & _); [vm_compute; lia|].
  exists s. split; [exact Hrun|exact Hrange].
Defined.

(** ** The score against the lookup *)

Lemma filter_ext_in {A} (P Q : A → Prop)
    `{!∀ x, Decision (P x), !∀ x, Decision (Q x)} (l : list A) :
  (∀ x, x ∈ l → (P x ↔ Q x)) → filter P l = filter Q l.
Proof.
  induction l as [|x l IH]; intros Hext; [done|].
  rewrite !filter_cons.
  rewrite IH by (intros y Hy; apply Hext; by apply list_elem_of_further).
  pose proof (Hext x (list_elem_of_here _ _)).
  destruct (decide (P x)), (decide (Q x)); tauto || done.
Qed.

Lemma length_filter_fmap {A B} (f : A → B) (Q : B → Prop)
    `{!∀ y, Decision (Q y)} (l : list A) :
  length (filter Q (f <$> l)) = length (filter (λ x, Q (f x)) l).
Proof.
  induction l as [|x l IH]; [done|].
  rewrite fmap_cons, !filter_cons. destruct (decide (Q (f x))); simpl; lia.
Qed.

Lemma bind_pair_fmap {A B} (f : A → B) (l : list A) :
  (x ← l; [f x]) = f <$> l.
Proof. induction l as [|x l IH]; [done|]. by rewrite bind_cons, IH. Qed.

Lemma accumulate_snoc xs x : accumulate (xs ++ [x]) 0 = accumulate xs 0 + x.
Proof.
  induction xs as [|y xs IH].
  - simpl app. rewrite accumulate_cons. unfold accumulate. simpl. lia.
  - rewrite <-app_comm_cons, !accumulate_cons, IH. lia.
Qed.

Lemma count_if_snoc {A} (p : A → bool) v x :
  count_if p (v ++ [x]) = count_if p v + Z.b2z (p x).
Proof.
  induction v as [|y v IH].
  - simpl app. rewrite count_if_cons. unfold count_if. simpl. lia.
  - rewrite <-app_comm_cons, !count_if_cons, IH. lia.
Qed.

(** The cells of a row that satisfy [p], counted through their indices. *)
Lemma count_if_seqZ {A} (p : A → bool) (v : list A) (Q : Z → Prop)
    `{!∀ i, Decision (Q i)} :
  (∀ i x, 0 ≤ i → v !! Z.to_nat i = Some x → (Q i ↔ p x = true)) →
  count_if p v = Z.of_nat (length (filter Q (seqZ 0 (Z.of_nat (length v))))).
Proof.
  induction v as [|x v IH] using rev_ind; intros Hext; [done|].
  rewrite length_app, Nat.add_1_r, seqZ_S, filter_app, length_app.
  rewrite count_if_snoc, Nat2Z.inj_add.
  rewrite <-IH
    by (intros i y Hi Hy; apply Hext; [done|by apply lookup_app_l_Some]).
  f_equal. rewrite (filter_singleton Q _ []).
  assert (Q (0 + Z.of_nat (length v)) ↔ p x = true) as HQ.
  { apply Hext; [lia|]. replace (Z.to_nat (0 + Z.of_nat (length v)))
      with (length v) by lia. apply list_lookup_middle. done. }
  destruct (decide (Q (0 + Z.of_nat (length v)))) as [Hq|Hq], (p x);
    simpl; try done; exfalso.
  - apply HQ in Hq. done.
  - apply Hq, HQ. done.
Qed.

Lemma get_score_snoc board row :
  get_score (board ++ [row]) =
    get_score board + count_if (λ cell, bool_decide (cell = OCCUPIED)) row.
Proof. unfold get_score. rewrite fmap_app. apply accumulate_snoc. Qed.

(** The occupied cells of a rectangular board, counted through their
    coordinates. *)
Lemma get_score_cells board m (Q : Coordinate → Prop)
    `{!∀ rc, Decision (Q rc)} :
  Forall (λ row : list FieldState, Z.of_nat (length row) = m) board →
  (∀ r c row x,
     0 ≤ r → 0 ≤ c →
     board !! Z.to_nat r = Some row → row !! Z.to_nat c = Some x →
     (Q (r, c) ↔ x = OCCUPIED)) →
  get_score board =
    Z.of_nat (length (filter Q (r ← seqZ 0 (Z.of_nat (length board));
                                c ← seqZ 0 m; [(r, c)]))).
Proof.
  induction board as [|row board IH] using rev_ind; intros Hrows Hext; [done|].
  apply Forall_app in Hrows as [Hrows Hrow].
  apply Forall_cons_1 in Hrow as [Hrow _].
  rewrite get_score_snoc, length_app, Nat.add_1_r, seqZ_S.
  rewrite bind_app, filter_app, length_app, Nat2Z.inj_add.
  rewrite <-IH; [|done|].
  2:{ intros r c row' x Hr Hc Hl Hx.
      apply (Hext r c row' x); try done. by apply lookup_app_l_Some. }
  f_equal. rewrite bind_singleton, bind_pair_fmap, length_filter_fmap.
  simpl in Hrow. rewrite <-Hrow. apply count_if_seqZ. intros c x Hc Hx.
  rewrite bool_decide_eq_true. apply (Hext _ c row x); [lia|done| |done].
  replace (Z.to_nat (0 + Z.of_nat (length board))) with (length board) by lia.
  by apply list_lookup_middle.
Qed.

(** On a well-formed board whose number of cells fits an [int],
    [get_score] is the number of coordinates at which [get_from_board] reads
    [OCCUPIED]. *)
Theorem get_score_get_from_board size board :
  wf_board size board → size * size ≤ INT_MAX →
  get_score board =
    Z.of_nat (length
      (filter (λ rc, get_from_board size board rc.1 rc.2 = Some OCCUPIED)
              (all_cells size))).
Proof.
  intros [Hlen Hrows] _. unfold all_cells.
  pose proof (get_score_cells board size
    (λ rc, get_from_board size board rc.1 rc.2 = Some OCCUPIED) Hrows) as Hcells.
  rewrite Hlen in Hcells. apply Hcells.
  intros r c row x Hr Hc Hl Hx. cbn [fst snd].
  pose proof (lookup_lt_Some _ _ _ Hl). pose proof (lookup_lt_Some _ _ _ Hx).
  rewrite Forall_lookup in Hrows. specialize (Hrows _ _ Hl). simpl in Hrows.
  rewrite (get_from_board_lookup size board r c row) by (done || lia).
  rewrite Hx. split; [by intros [= ->]|by intros ->].
Qed.

Lemma get_score_get_from_board_witness :
  wf_board 9 lone_pair ∧ 9 * 9 ≤ INT_MAX ∧
  get_score lone_pair =
    Z.of_nat (length
      (filter (λ rc, get_from_board 9 lone_pair rc.1 rc.2 = Some OCCUPIED)
              (all_cells 9))).
Proof.
  assert (9 * 9 ≤ INT_MAX) as Hint by (unfold INT_MAX; lia).
  split; [exact wf_board_lone_pair|]. split; [exact Hint|].
  apply (get_score_get_from_board 9 lone_pair wf_board_lone_pair Hint).
Defined.

(** * Printing *)

Lemma string_app_cons x (a b : string) : String x a +:+ b = String x (a +:+ b).
Proof. reflexivity. Qed.

Lemma string_app_nil (a : string) : "" +:+ a = a.
Proof. reflexivity. Qed.

Lemma string_app_assoc (a b c : string) : (a +:+ b) +:+ c = a +:+ (b +:+ c).
Proof.
  induction a as [|x a IH]; [done|]. by rewrite !string_app_cons, IH.
Qed.


(** ** Boards *)

Lemma print_board_cons row board :
  print_board (row :: board) =
    print_each row (λ cell,
      match cell with
      | UNUSABLE => " "
      | EMPTY => "."
      | OCCUPIED => "@"
      end) +:+ newline +:+ print_board board.
Proof. unfold print_board. cbn [print_each]. by rewrite string_app_assoc. Qed.




Lemma print_row_inj (row1 row2 : list FieldState) (rest1 rest2 : string) :
  print_each row1 (λ cell,
      match cell with
      | UNUSABLE => " "
      | EMPTY => "."
      | OCCUPIED => "@"
      end) +:+ newline +:+ rest1 =
  print_each row2 (λ cell,
      match cell with
      | UNUSABLE => " "
      | EMPTY => "."
      | OCCUPIED => "@"
      end) +:+ newline +:+ rest2 →
  row1 = row2 ∧ rest1 = rest2.
Proof.
  revert row2. induction row1 as [|c1 row1 IH]; intros [|c2 row2];
    cbn [print_each]; rewrite ?string_app_assoc; unfold newline.
  - rewrite !string_app_nil, !string_app_cons, !string_app_nil.
    by intros [= ->].
  - destruct c2; rewrite !string_app_nil, !string_app_cons; intros Heq;
      discriminate Heq.
  - destruct c1; rewrite !string_app_nil, !string_app_cons; intros Heq;
      discriminate Heq.
  - destruct c1, c2; rewrite !string_app_cons, !string_app_nil;
      intros Heq; try discriminate Heq;
      injection Heq as Heq; fold newline in Heq;
      by destruct (IH row2 Heq) as [-> ->].
Qed.

(** The text determines the board: two boards that print alike are equal. *)
Theorem print_board_inj board1 board2 :
  print_board board1 = print_board board2 → board1 = board2.
Proof.
  revert board2. induction board1 as [|row1 board1 IH]; intros [|row2 board2].
  - done.
  - rewrite print_board_cons. destruct row2 as [|[] ?]; done.
  - rewrite print_board_cons. destruct row1 as [|[] ?]; done.
  - rewrite !print_board_cons. intros [-> Hrest]%print_row_inj.
    by rewrite (IH _ Hrest).
Qed.

Lemma print_board_inj_witness :
  print_board (put initial_board 4 4 EMPTY) = print_board initial_board ∧
  put initial_board 4 4 EMPTY = initial_board.
Proof.
  assert (print_board (put initial_board 4 4 EMPTY) = print_board initial_board)
    as Heq by (vm_compute; reflexivity).
  split; [exact Heq|].
  apply (print_board_inj (put initial_board 4 4 EMPTY) initial_board Heq).
Defined.

(** ** Moves *)

Lemma string_of_uint_digits d : all_digits (NilEmpty.string_of_uint d) = true.
Proof. induction d; simpl; by rewrite ?IHd. Qed.

Lemma print_size_t_digits n : all_digits (print_size_t n) = true.
Proof.
  unfold print_size_t, NilZero.string_of_uint.
  destruct (N.to_uint (Z.to_N n)) eqn:E; try done;
    rewrite <-E; apply string_of_uint_digits.
Qed.

Lemma N_to_uint_nonnil n : N.to_uint n ≠ Decimal.Nil.
Proof. destruct n; [done|]. apply DecimalPos.Unsigned.to_uint_nonnil. Qed.

(** Reading back what [print_size_t] wrote gives the number. *)
Lemma print_size_t_read n :
  0 ≤ n →
  NilZero.uint_of_string (print_size_t n) = Some (N.to_uint (Z.to_N n)).
Proof. intros _. apply NilZero.usu, N_to_uint_nonnil. Qed.

Lemma print_size_t_inj a b :
  0 ≤ a → 0 ≤ b → print_size_t a = print_size_t b → a = b.
Proof.
  intros Ha Hb Heq.
  pose proof (print_size_t_read a Ha) as Hra.
  rewrite Heq, (print_size_t_read b Hb) in Hra.
  injection Hra as Hu. apply DecimalN.Unsigned.to_uint_inj in Hu. lia.
Qed.

Lemma digits_split s1 s2 c rest1 rest2 :
  all_digits s1 = true → all_digits s2 = true → is_digit c = false →
  s1 +:+ String c rest1 = s2 +:+ String c rest2 →
  s1 = s2 ∧ rest1 = rest2.
Proof.
  intros H1 H2 Hc. revert s2 H2.
  induction s1 as [|x s1 IH]; intros [|y s2] H2; simpl.
  - by intros [= ->].
  - intros [= -> _]. simpl in H2. apply andb_true_iff in H2 as [H2 _]. congruence.
  - intros [= -> _]. simpl in H1. apply andb_true_iff in H1 as [H1 _]. congruence.
  - intros [= -> Heq]. simpl in H1, H2.
    apply andb_true_iff in H1 as [_ H1]. apply andb_true_iff in H2 as [_ H2].
    destruct (IH H1 s2 H2 Heq) as [-> ->]. done.
Qed.

(** The text determines the move: two moves with [size_t] coordinates that
    print alike are equal. *)
Theorem print_move_inj move1 move2 :
  0 ≤ (from move1).1 → 0 ≤ (from move1).2 →
  0 ≤ (to move1).1 → 0 ≤ (to move1).2 →
  0 ≤ (from move2).1 → 0 ≤ (from move2).2 →
  0 ≤ (to move2).1 → 0 ≤ (to move2).2 →
  print_move move1 = print_move move2 → move1 = move2.
Proof.
  destruct move1 as [[fr1 fc1] [tr1 tc1]], move2 as [[fr2 fc2] [tr2 tc2]].
  unfold print_move. cbn [from to fst snd]. intros ? ? ? ? ? ? ? ? Heq.
  rewrite ?string_app_assoc, !string_app_cons, !string_app_nil in Heq.
  injection Heq as Heq.
  apply digits_split in Heq as [Hfr Heq];
    [|apply print_size_t_digits..|done].
  injection Heq as Heq.
  apply digits_split in Heq as [Hfc Heq];
    [|apply print_size_t_digits..|done].
  injection Heq as Heq.
  apply digits_split in Heq as [Htr Heq];
    [|apply print_size_t_digits..|done].
  injection Heq as Heq.
  apply digits_split in Heq as [Htc _];
    [|apply print_size_t_digits..|done].
  apply print_size_t_inj in Hfr, Hfc, Htr, Htc; try done. by subst.
Qed.

Lemma print_move_inj_witness :
  print_move (mkMove (2, 4) (4, 14)) = print_move (jump (2, 4) (1, 5)) ∧
  mkMove (2, 4) (4, 14) = jump (2, 4) (1, 5).
Proof.
  assert (print_move (mkMove (2, 4) (4, 14)) = print_move (jump (2, 4) (1, 5)))
    as Heq by (vm_compute; reflexivity).
  split; [exact Heq|].
  apply (print_move_inj (mkMove (2, 4) (4, 14)) (jump (2, 4) (1, 5)));
    [simpl; lia..|exact Heq].
Defined.

(** * The seed search *)

Section SearchProperties.

Context {RandState : Type}.
Variable srand : Z → RandState.
Variable rand : RandState → Z * RandState.
Variable time : nat → Z.

(** What a pass does, in terms of the run it makes. *)
Lemma search_pass_run st :
  ∃ run st',
    simulate srand rand simulation_fuel (wrap (rand (search_generator st)).1)
      = Some (Ok run) ∧
    1 ≤ score run ≤ 67 ∧
    search_pass srand rand time st = Some (Ok st') ∧
    seed st' = wrap (rand (search_generator st)).1 ∧
    last_score st' = score run ∧
    ((n_iterations st + 1) mod granularity ≠ 0 →
     search_generator st' = generator run ∧
     time_calls st' = time_calls st ∧
     n_iterations st' = n_iterations st + 1 ∧
     cout st' = cout st ∧
     (score run < best_score st →
      best_score st' = score run ∧ best_seed st' = seed st') ∧
     (¬ score run < best_score st →
      best_score st' = best_score st ∧ best_seed st' = best_seed st)) ∧
    ((n_iterations st + 1) mod granularity = 0 →
     search_generator st' = srand (time (time_calls st) mod 2 ^ 32) ∧
     time_calls st' = S (time_calls st) ∧
     n_iterations st' = 0 ∧ best_score st' = INT_MAX ∧ best_seed st' = 0).
Proof.
  unfold search_pass.
  destruct (rand (search_generator st)) as [r g] eqn:Hrand. cbn [fst].
  destruct (simulate_score_range srand rand (wrap r) simulation_fuel)
    as (run & Hrun & _ & Hrange & _); [vm_compute; lia|].
  rewrite Hrun. exists run.
  destruct (bool_decide (score run < best_score st)) eqn:Hbest;
    [apply bool_decide_eq_true in Hbest|apply bool_decide_eq_false in Hbest];
    (case_bool_decide as Hbatch; eexists; split_and!; try done;
     cbn [seed last_score search_generator time_calls n_iterations
          best_score best_seed cout]; try done; try lia;
     intros; try (split_and!; done)).
Qed.

(** A pass of the search always completes. *)
Lemma search_pass_total st : ∃ st', search_pass srand rand time st = Some (Ok st').
Proof.
  destruct (search_pass_run st) as (run & st' & _ & _ & Hpass & _). eauto.
Qed.

Lemma search_pass_inv st st' :
  search_inv srand rand st → search_pass srand rand time st = Some (Ok st') →
  search_inv srand rand st'.
Proof.
  intros [Hn Hbest] Hpass.
  destruct (search_pass_run st)
    as (run & st1 & Hrun & Hrange & Hpass1 & Hseed & Hscore & Hin & Hend).
  assert (st1 = st') as -> by congruence.
  assert (run_simulation srand rand simulation_fuel (seed st')
          = Some (Ok (score run))) as Hrs.
  { unfold run_simulation. rewrite Hseed, Hrun. done. }
  unfold search_inv, granularity, INT_MAX in *.
  destruct (decide ((n_iterations st + 1) mod 100000 = 0)) as [Hbatch|Hbatch].
  - destruct (Hend Hbatch) as (_ & _ & -> & -> & ->). split; [lia|by left].
  - destruct (Hin Hbatch) as (_ & _ & Hn' & _ & Hlt & Hge).
    rewrite Hn', Hscore. split.
    + split; [lia|]. destruct (decide (n_iterations st + 1 = 100000)) as [E|];
        [|lia]. rewrite E in Hbatch. done.
    + right. split; [lia|].
      destruct (decide (score run < best_score st)) as [Hless|Hless].
      * destruct (Hlt Hless) as [-> ->]. split_and!; try done; lia.
      * destruct (Hge Hless) as [-> ->].
        destruct Hbest as [(_ & Hmax & _)|(_ & Hb & _ & Hbs)]; [lia|].
        split_and!; try done; lia.
Qed.

Lemma searched_inv seed0 calls out st :
  searched srand rand time seed0 calls out st → search_inv srand rand st.
Proof.
  induction 1 as [|st st' _ IH _ Hpass].
  - unfold search_inv, search_start, granularity.
    cbn [n_iterations best_score best_seed]. split; [lia|by left].
  - by eapply search_pass_inv.
Qed.

End SearchProperties.

(** During the search the tracked best is always genuine: a pass always
    completes; between passes [n_iterations] stays below the batch size, and
    either the batch has just been reset ([best_score] is [INT_MAX]) or
    [best_score] lies between 1 and 67, does not exceed the last score, and
    is the score that [run_simulation] returns for [best_seed]. *)
Theorem search_tracks_best {RandState : Type}
    (srand : Z → RandState) (rand : RandState → Z * RandState)
    (time : nat → Z) seed0 calls out st :
  searched srand rand time seed0 calls out st →
  (∃ st', search_pass srand rand time st = Some (Ok st')) ∧
  0 ≤ n_iterations st < granularity ∧
  ((n_iterations st = 0 ∧ best_score st = INT_MAX ∧ best_seed st = 0) ∨
   (0 < n_iterations st ∧
    1 ≤ best_score st ≤ 67 ∧
    best_score st ≤ last_score st ∧
    run_simulation srand rand simulation_fuel (best_seed st)
      = Some (Ok (best_score st)))).
Proof.
  intros Hsearched. split; [apply search_pass_total|].
  exact (searched_inv srand rand time seed0 calls out st Hsearched).
Qed.

Lemma search_tracks_best_witness :
  ∃ st,
    search_pass lcg_srand lcg_rand (λ _, 1700000000)
      (search_start lcg_srand (λ _, 1700000000) 0 0 "") = Some (Ok st) ∧
    best_score st = 13 ∧
    run_simulation lcg_srand lcg_rand simulation_fuel (best_seed st)
      = Some (Ok (best_score st)).
Proof.
  destruct (search_pass lcg_srand lcg_rand (λ _, 1700000000)
              (search_start lcg_srand (λ _, 1700000000) 0 0 ""))
    as [[st|]|] eqn:Hpass; [|by vm_compute in Hpass..].
  assert (searched lcg_srand lcg_rand (λ _, 1700000000) 0 0 "" st) as Hst.
  { eapply searched_pass; [apply searched_start|by vm_compute|exact Hpass]. }
  destruct (search_tracks_best _ _ _ _ _ _ _ Hst)
    as (_ & _ & [(Hzero & _)|(_ & _ & _ & Hbest)]).
  - vm_compute in Hpass. injection Hpass as <-. by vm_compute in Hzero.
  - exists st. split; [reflexivity|]. split; [|exact Hbest].
    vm_compute in Hpass. by injection Hpass as <-.
Defined.

(** Within a batch the seed of a pass fixes everything the next pass
    computes: [run_simulation] re-seeds the process-wide generator with the
    seed it is given, so after two passes that drew the same seed (and did
    not end a batch) the generator is in the same state, and the passes that
    follow draw the same seed and obtain the same score. *)
Theorem search_seed_determines_next {RandState : Type}
    (srand : Z → RandState) (rand : RandState → Z * RandState)
    (time : nat → Z) st1 st2 st1' st2' :
  search_pass srand rand time st1 = Some (Ok st1') →
  search_pass srand rand time st2 = Some (Ok st2') →
  seed st1' = seed st2' →
  n_iterations st1' ≠ 0 → n_iterations st2' ≠ 0 →
  search_generator st1' = search_generator st2' ∧
  last_score st1' = last_score st2' ∧
  ∀ st1'' st2'',
    search_pass srand rand time st1' = Some (Ok st1'') →
    search_pass srand rand time st2' = Some (Ok st2'') →
    seed st1'' = seed st2'' ∧ last_score st1'' = last_score st2''.
Proof.
  intros Hpass1 Hpass2 Hseed Hn1 Hn2.
  destruct (search_pass_run srand rand time st1)
    as (run1 & s1 & Hrun1 & _ & Hp1 & Hs1 & Hsc1 & Hin1 & Hend1).
  destruct (search_pass_run srand rand time st2)
    as (run2 & s2 & Hrun2 & _ & Hp2 & Hs2 & Hsc2 & Hin2 & Hend2).
  assert (s1 = st1') as -> by congruence.
  assert (s2 = st2') as -> by congruence.
  assert (run1 = run2) as -> by (rewrite <-Hs1, <-Hs2, Hseed in *; congruence).
  assert (search_generator st1' = search_generator st2') as Hgen.
  { destruct (decide ((n_iterations st1 + 1) mod granularity = 0)) as [E|E];
      [by destruct (Hend1 E) as (_ & _ & ? & _)|].
    destruct (decide ((n_iterations st2 + 1) mod granularity = 0)) as [E'|E'];
      [by destruct (Hend2 E') as (_ & _ & ? & _)|].
    destruct (Hin1 E) as [-> _]. destruct (Hin2 E') as [-> _]. done. }
  split; [done|]. split; [congruence|].
  intros st1'' st2'' Hnext1 Hnext2.
  destruct (search_pass_run srand rand time st1')
    as (r1 & t1 & Hr1 & _ & Hq1 & Ht1 & Htc1 & _).
  destruct (search_pass_run srand rand time st2')
    as (r2 & t2 & Hr2 & _ & Hq2 & Ht2 & Htc2 & _).
  assert (t1 = st1'') as -> by congruence.
  assert (t2 = st2'') as -> by congruence.
  rewrite Hgen in *. split; [congruence|]. congruence.
Qed.

Lemma search_seed_determines_next_witness :
  ∃ st st', 
    search_pass lcg_srand lcg_rand (λ _, 1700000000)
      (search_start lcg_srand (λ _, 1700000000) 0 0 "") = Some (Ok st) ∧
    search_pass lcg_srand lcg_rand (λ _, 1700000000)
      (search_start lcg_srand (λ _, 1700000000) 7 3 "x") = Some (Ok st') ∧
    search_generator st = search_generator st'.
Proof.
  destruct (search_pass lcg_srand lcg_rand (λ _, 1700000000)
              (search_start lcg_srand (λ _, 1700000000) 0 0 ""))
    as [[st|]|] eqn:Hpass; [|by vm_compute in Hpass..].
  destruct (search_pass lcg_srand lcg_rand (λ _, 1700000000)
              (search_start lcg_srand (λ _, 1700000000) 7 3 "x"))
    as [[st'|]|] eqn:Hpass'; [|by vm_compute in Hpass'..].
  exists st, st'. split; [reflexivity|]. split; [reflexivity|].
  apply (search_seed_determines_next _ _ _ _ _ _ _ Hpass Hpass').
  - vm_compute in Hpass, Hpass'.
    injection Hpass as <-. injection Hpass' as <-. reflexivity.
  - vm_compute in Hpass. injection Hpass as <-. by vm_compute.
  - vm_compute in Hpass'. injection Hpass' as <-. by vm_compute.
Defined.
